(** * mongoquery: the condition parser, the pipeline builder and the SQL front end

    A shallow embedding of the Go packages [builder] and [parser] of
    brothergiez/mongoquery, with the theorems that settle what the
    specification says about them.

    Conventions of the embedding.
    - A Go [string] is a Rocq [string], a sequence of bytes.  The functions
      of Go's [strings] package that look at letter case or at white space
      ([ToUpper], [TrimSpace], [Fields]) are modelled on strings of ASCII
      bytes, where Go takes its byte-wise fast path; [GoStrings.is_ascii] is
      the test of that path, and a theorem whose result depends on the letter
      case or the white space of its input has it as a hypothesis.  The other
      functions ([Split], [Index], [Trim] by a cut set of ASCII characters,
      ...) and the character classes of [regexp] are byte-wise in Go too.
    - [int] and [int64] are [Z]; no function of the model does arithmetic on
      them, so no wrap-around is written out.  [int] is taken to be 64 bits
      wide, as on the platforms the driver supports.
    - [bson.M] (a Go map) is a [gmap string Value]; [bson.D] (an ordered
      document) is a list of key/value pairs; a pipeline is a list of
      [bson.D].
    - A method with a pointer receiver that mutates the builder is a function
      from the builder to the updated builder.
    - A run-time panic (an index out of range) is an explicit outcome. *)

From Stdlib Require Import ZArith NArith Ascii String Lia.
From stdpp Require Import gmap strings list pretty.

#[local] Set Warnings "-register-all".
#[local] Open Scope string_scope.
#[local] Open Scope list_scope.
#[local] Open Scope Z_scope.

(** Closed statements about the model are settled by evaluating it. *)
Ltac by_computation := repeat apply conj; vm_compute; reflexivity.

(* ================================================================== *)
(** ** Go's [strings] package, on ASCII strings *)
(* ================================================================== *)

Module GoStrings.

Definition code (c : ascii) : N := N_of_ascii c.

(** A byte below [utf8.RuneSelf]. *)
Definition is_ascii_char (c : ascii) : bool := (code c <? 128)%N.

(** Every byte of the string is ASCII: the test [strings.ToUpper],
    [strings.Fields] and [strings.TrimSpace] make before they take their
    byte-wise path.  Outside this domain Go decodes UTF-8 and follows the
    Unicode tables (it cuts at U+00A0, and maps U+017F to [S]); the
    functions below do not model that. *)
Fixpoint is_ascii (s : string) : bool :=
  match s with
  | EmptyString => true
  | String c s' => is_ascii_char c && is_ascii s'
  end.

Definition is_lower (c : ascii) : bool := ((97 <=? code c) && (code c <=? 122))%N.

(** The case mapping of [strings.ToUpper] on an ASCII string: a byte from
    [a] to [z] loses 32, any other byte is kept. *)
Definition upper (c : ascii) : ascii :=
  if is_lower c then ascii_of_N (code c - 32) else c.

(** The byte-wise lower-casing [strconv] compares letters under: a byte
    from [A] to [Z] gains 32. *)
Definition lower (c : ascii) : ascii :=
  if ((65 <=? code c) && (code c <=? 90))%N then ascii_of_N (code c + 32) else c.

(** White space of an ASCII string, the table [asciiSpace] of [strings]:
    ['\t'], ['\n'], ['\v'], ['\f'], ['\r'] and the space. *)
Definition is_space (c : ascii) : bool :=
  (((9 <=? code c) && (code c <=? 13)) || (code c =? 32))%N.

(** [strings.ToUpper], on an ASCII string. *)
Fixpoint ToUpper (s : string) : string :=
  match s with
  | EmptyString => EmptyString
  | String c s' => String (upper c) (ToUpper s')
  end.

Definition is_empty (s : string) : bool :=
  match s with EmptyString => true | _ => false end.

Fixpoint TrimLeftFunc (f : ascii -> bool) (s : string) : string :=
  match s with
  | EmptyString => EmptyString
  | String c s' => if f c then TrimLeftFunc f s' else s
  end.

Fixpoint TrimRightFunc (f : ascii -> bool) (s : string) : string :=
  match s with
  | EmptyString => EmptyString
  | String c s' =>
      let r := TrimRightFunc f s' in
      if is_empty r && f c then EmptyString else String c r
  end.

Definition TrimFunc (f : ascii -> bool) (s : string) : string :=
  TrimRightFunc f (TrimLeftFunc f s).

(** [strings.TrimSpace], on an ASCII string. *)
Definition TrimSpace (s : string) : string := TrimFunc is_space s.

Fixpoint mem_char (c : ascii) (cutset : string) : bool :=
  match cutset with
  | EmptyString => false
  | String d cutset' => Ascii.eqb c d || mem_char c cutset'
  end.

(** [strings.Trim(s, cutset)]. *)
Definition Trim (s cutset : string) : string :=
  TrimFunc (fun c => mem_char c cutset) s.

Fixpoint HasPrefix (s p : string) : bool :=
  match p, s with
  | EmptyString, _ => true
  | String _ _, EmptyString => false
  | String d p', String c s' => Ascii.eqb c d && HasPrefix s' p'
  end.

Fixpoint drop (n : nat) (s : string) : string :=
  match n, s with
  | O, _ => s
  | S _, EmptyString => EmptyString
  | S n', String _ s' => drop n' s'
  end.

Fixpoint take (n : nat) (s : string) : string :=
  match n, s with
  | O, _ => EmptyString
  | S _, EmptyString => EmptyString
  | S n', String c s' => String c (take n' s')
  end.

Definition len (s : string) : Z := Z.of_nat (String.length s).

(** The slices [s[i:]] and [s[:i]], for [0 <= i <= len s]. *)
Definition slice_from (s : string) (i : Z) : string := drop (Z.to_nat i) s.
Definition slice_to (s : string) (i : Z) : string := take (Z.to_nat i) s.

Definition TrimPrefix (s p : string) : string :=
  if HasPrefix s p then drop (String.length p) s else s.

Definition HasSuffix (s p : string) : bool :=
  (String.length p <=? String.length s)%nat
  && String.eqb (drop (String.length s - String.length p) s) p.

Definition TrimSuffix (s p : string) : string :=
  if HasSuffix s p then take (String.length s - String.length p) s else s.

Fixpoint index_nat (s substr : string) : option nat :=
  if HasPrefix s substr then Some O
  else match s with
       | EmptyString => None
       | String _ s' => option_map S (index_nat s' substr)
       end.

(** [strings.Index]: the position of the first occurrence, or -1. *)
Definition Index (s substr : string) : Z :=
  match index_nat s substr with
  | Some i => Z.of_nat i
  | None => -1
  end.

Definition Contains (s substr : string) : bool := 0 <=? Index s substr.

Definition snoc (s : string) (c : ascii) : string := String.append s (String c EmptyString).

(** The splitting loop of [genSplit] for a non-empty separator: [skip]
    characters of a separator just matched are still to be passed over,
    [cur] is the piece being read, and [k] bounds the cuts still allowed
    ([None]: any number). *)
Fixpoint split_loop (sep : string) (s : string) (skip : nat) (k : option nat)
    (cur : string) : list string :=
  match s with
  | EmptyString => [cur]
  | String c s' =>
      match skip with
      | S skip' => split_loop sep s' skip' k cur
      | O =>
          let cut := match k with Some O => false | _ => HasPrefix s sep end in
          if cut
          then cur :: split_loop sep s' (String.length sep - 1)
                        (option_map Nat.pred k) EmptyString
          else split_loop sep s' O k (snoc cur c)
      end
  end.

Fixpoint explode (s : string) : list string :=
  match s with
  | EmptyString => []
  | String c s' => String c EmptyString :: explode s'
  end.

(** [strings.SplitN(s, sep, n)]. *)
Definition SplitN (s sep : string) (n : Z) : list string :=
  if n =? 0 then []
  else if is_empty sep
       then (if n <? 0 then explode s
             else match explode (take (Z.to_nat n - 1) s), drop (Z.to_nat n - 1) s with
                  | l, EmptyString => l
                  | l, r => l ++ [r]
                  end)
       else split_loop sep s O (if n <? 0 then None else Some (Z.to_nat n - 1)%nat)
              EmptyString.

(** [strings.Split(s, sep)]. *)
Definition Split (s sep : string) : list string := SplitN s sep (-1).

(** [strings.Join]. *)
Fixpoint Join (elems : list string) (sep : string) : string :=
  match elems with
  | [] => EmptyString
  | [e] => e
  | e :: rest => String.append e (String.append sep (Join rest sep))
  end.

Definition starts_word (s : string) : bool :=
  match s with
  | EmptyString => false
  | String c _ => negb (is_space c)
  end.

(** [strings.Fields], on an ASCII string: the maximal runs of characters
    that are not white space. *)
Fixpoint Fields (s : string) : list string :=
  match s with
  | EmptyString => []
  | String c s' =>
      if is_space c then Fields s'
      else if starts_word s'
           then match Fields s' with
                | w :: ws => String c w :: ws
                | [] => [String c EmptyString]
                end
           else String c EmptyString :: Fields s'
  end.

End GoStrings.

(* ================================================================== *)
(** ** Go's [strconv] package *)
(* ================================================================== *)

Module GoStrconv.
Import GoStrings.

Inductive NumError : Set := ErrSyntax | ErrRange.

Definition is_digit (c : ascii) : bool := ((48 <=? code c) && (code c <=? 57))%N.
Definition digit_val (c : ascii) : Z := Z.of_N (code c) - 48.

Definition maxUint64 : Z := 2 ^ 64 - 1.

(** The digit loop of [ParseUint(s, 10, 64)]: it stops with a range error
    as soon as the accumulator leaves [uint64]. *)
Fixpoint parse_uint_loop (s : string) (n : Z) : Z + NumError :=
  match s with
  | EmptyString => inl n
  | String c s' =>
      if is_digit c then
        if maxUint64 / 10 + 1 <=? n then inr ErrRange
        else
          let n1 := n * 10 + digit_val c in
          if maxUint64 <? n1 then inr ErrRange else parse_uint_loop s' n1
      else inr ErrSyntax
  end.

Definition ParseUint (s : string) : Z + NumError :=
  if is_empty s then inr ErrSyntax else parse_uint_loop s 0.

(** [strconv.ParseInt(s, 10, 64)]. *)
Definition ParseInt (s : string) : Z + NumError :=
  match s with
  | EmptyString => inr ErrSyntax
  | String c s' =>
      let neg := Ascii.eqb c "-" in
      let digits := if Ascii.eqb c "+" || neg then s' else s in
      match ParseUint digits with
      | inr ErrSyntax => inr ErrSyntax
      | r =>
          let un := match r with inl un => un | inr _ => maxUint64 end in
          let cutoff := 2 ^ 63 in
          if negb neg && (cutoff <=? un) then inr ErrRange
          else if neg && (cutoff <? un) then inr ErrRange
          else inl (if neg then - un else un)
      end
  end.

(** [strconv.Atoi]: [ParseInt(s, 10, 0)] with a 64-bit [int]; its fast path
    for short strings computes the same result. *)
Definition Atoi (s : string) : Z + NumError := ParseInt s.

(** A [float64] is kept as the description of the number [ParseFloat] read:
    [F64_near neg hex m e] stands for the [float64] nearest to
    [(-1)^neg * m * B^e], where [B] is 10, or 2 for a hexadecimal literal.
    The development never computes with it. *)
Inductive float64 : Set :=
  | F64_inf (neg : bool)
  | F64_nan
  | F64_near (neg hex : bool) (m : Z) (e : Z).

Fixpoint commonPrefixLenIgnoreCase (s prefix : string) : nat :=
  match prefix, s with
  | String p prefix', String c s' =>
      if Ascii.eqb (lower c) p then S (commonPrefixLenIgnoreCase s' prefix') else O
  | _, _ => O
  end.

(** [special]: the value and the number of bytes read. *)
Definition special (s : string) : option (float64 * nat) :=
  match s with
  | EmptyString => None
  | String c s' =>
      let inf (neg : bool) (nsign : nat) (t : string) :=
        let n := commonPrefixLenIgnoreCase t "infinity" in
        let n := if (3 <? n)%nat && (n <? 8)%nat then 3%nat else n in
        if (n =? 3)%nat || (n =? 8)%nat then Some (F64_inf neg, (nsign + n)%nat) else None in
      if Ascii.eqb c "+" then inf false 1%nat s'
      else if Ascii.eqb c "-" then inf true 1%nat s'
      else if Ascii.eqb c "i" || Ascii.eqb c "I" then inf false 0%nat s
      else if Ascii.eqb c "n" || Ascii.eqb c "N" then
        if (commonPrefixLenIgnoreCase s "nan" =? 3)%nat then Some (F64_nan, 3%nat) else None
      else None
  end.

Definition is_hex_letter (c : ascii) : bool :=
  ((97 <=? code (lower c)) && (code (lower c) <=? 102))%N.
Definition hex_letter_val (c : ascii) : Z := Z.of_N (code (lower c)) - 97 + 10.

Record mantissa : Set := Mantissa {
  sawdot : bool; sawdigits : bool; nd : Z; dp : Z; mant : Z; underscores : bool
}.

(** The mantissa loop of [readFloat]; the digits beyond the 19th (16th in
    base 16), which Go keeps only as a sticky flag, stay in [mant]. *)
Fixpoint read_mantissa (hex : bool) (s : string) (st : mantissa) : mantissa * string :=
  match s with
  | EmptyString => (st, s)
  | String c s' =>
      let 'Mantissa sdot sdig n d m u := st in
      if Ascii.eqb c "_" then read_mantissa hex s' (Mantissa sdot sdig n d m true)
      else if Ascii.eqb c "." then
        if sdot then (st, s) else read_mantissa hex s' (Mantissa true sdig n n m u)
      else if is_digit c then
        if Ascii.eqb c "0" && (n =? 0) then read_mantissa hex s' (Mantissa sdot true n (d - 1) m u)
        else read_mantissa hex s'
               (Mantissa sdot true (n + 1) d (m * (if hex then 16 else 10) + digit_val c) u)
      else if hex && is_hex_letter c then
        read_mantissa hex s' (Mantissa sdot true (n + 1) d (m * 16 + hex_letter_val c) u)
      else (st, s)
  end.

(** The exponent digits: the value stops growing at 10000. *)
Fixpoint read_exp_digits (s : string) (e : Z) (u : bool) : Z * bool * string :=
  match s with
  | EmptyString => (e, u, s)
  | String c s' =>
      if Ascii.eqb c "_" then read_exp_digits s' e true
      else if is_digit c then
        read_exp_digits s' (if e <? 10000 then e * 10 + digit_val c else e) u
      else (e, u, s)
  end.

(** [underscoreOK]: [saw] is 0 at the start, 1 after a digit, 2 after an
    underscore and 3 after anything else. *)
Fixpoint underscore_loop (hex : bool) (s : string) (saw : nat) : bool :=
  match s with
  | EmptyString => negb (saw =? 2)%nat
  | String c s' =>
      if is_digit c || (hex && is_hex_letter c) then underscore_loop hex s' 1%nat
      else if Ascii.eqb c "_" then
        if (saw =? 1)%nat then underscore_loop hex s' 2%nat else false
      else if (saw =? 2)%nat then false
      else underscore_loop hex s' 3%nat
  end.

Definition underscoreOK (s : string) : bool :=
  let s := match s with
           | String c s' => if Ascii.eqb c "-" || Ascii.eqb c "+" then s' else s
           | _ => s
           end in
  match s with
  | String c0 (String c1 s') =>
      if Ascii.eqb c0 "0"
         && (Ascii.eqb (lower c1) "b" || Ascii.eqb (lower c1) "o" || Ascii.eqb (lower c1) "x")
      then underscore_loop (Ascii.eqb (lower c1) "x") s' 1%nat
      else underscore_loop false s 0%nat
  | _ => underscore_loop false s 0%nat
  end.

(** [readFloat]: sign, base, mantissa, exponent, and what is left of [s]. *)
Definition readFloat (s : string) : option (bool * bool * Z * Z * string) :=
  match s with
  | EmptyString => None
  | String c s' =>
      let neg := Ascii.eqb c "-" in
      let t := if Ascii.eqb c "+" || neg then s' else s in
      let '(hex, t) :=
        match t with
        | String c0 (String c1 ((String _ _) as t')) =>
            if Ascii.eqb c0 "0" && Ascii.eqb (lower c1) "x" then (true, t') else (false, t)
        | _ => (false, t)
        end in
      let '(Mantissa sdot sdig n d m u, t) :=
        read_mantissa hex t (Mantissa false false 0 0 0 false) in
      if negb sdig then None
      else
        let d := if sdot then d else n in
        let d := if hex then d * 4 else d in
        let n := if hex then n * 4 else n in
        let after_exp : option (Z * bool * string) :=
          match t with
          | String ce t1 =>
              if Ascii.eqb (lower ce) (if hex then "p" else "e")%char then
                match t1 with
                | EmptyString => None
                | String cs t2 =>
                    let esign := if Ascii.eqb cs "-" then (-1) else 1 in
                    let t3 := if Ascii.eqb cs "+" || Ascii.eqb cs "-" then t2 else t1 in
                    match t3 with
                    | String cd _ =>
                        if is_digit cd then
                          let '(e, u, t4) := read_exp_digits t3 0 u in
                          Some (d + e * esign, u, t4)
                        else None
                    | EmptyString => None
                    end
                end
              else if hex then None else Some (d, u, t)
          | EmptyString => if hex then None else Some (d, u, t)
          end in
        match after_exp with
        | None => None
        | Some (d, u, t) =>
            let exp := if m =? 0 then 0 else d - n in
            let read := take (String.length s - String.length t) s in
            if u && negb (underscoreOK read) then None
            else Some (neg, hex, m, exp, t)
        end
  end.

(** The magnitudes from [2^1024 - 2^970] on round to an infinity. *)
Definition overflows (hex : bool) (m e : Z) : bool :=
  let B := if hex then 2 else 10 in
  let T := 2 ^ 1024 - 2 ^ 970 in
  if 0 <=? e then T <=? m * B ^ e else T * B ^ (- e) <=? m.

(** [strconv.ParseFloat(s, 64)]. *)
Definition ParseFloat (s : string) : float64 + NumError :=
  match special s with
  | Some (f, n) => if (n =? String.length s)%nat then inl f else inr ErrSyntax
  | None =>
      match readFloat s with
      | None => inr ErrSyntax
      | Some (neg, hex, m, e, rest) =>
          if negb (is_empty rest) then inr ErrSyntax
          else if overflows hex m e then inr ErrRange
          else inl (F64_near neg hex m e)
      end
  end.

End GoStrconv.

(* ================================================================== *)
(** ** Go's [regexp] package: sequences of repeated character classes *)
(* ================================================================== *)

Module GoRegexp.
Import GoStrings.

(** One factor of a pattern: a character class under a greedy [+]
    ([plus = true]) or a greedy [*], inside a capturing group or not. *)
Record piece : Type := Piece { cls : ascii -> bool; plus : bool; captured : bool }.

Fixpoint run_length (f : ascii -> bool) (s : string) : nat :=
  match s with
  | String c s' => if f c then S (run_length f s') else O
  | EmptyString => O
  end.

(** Leftmost-first matching at the start of [s]: each factor takes the
    longest run that lets the rest of the pattern match, as a backtracking
    matcher finds it.  The result is the captured groups and the unmatched
    rest. *)
Fixpoint match_here (re : list piece) (s : string) : option (list string * string) :=
  match re with
  | [] => Some ([], s)
  | p :: re' =>
      (fix try (k : nat) : option (list string * string) :=
         let attempt :=
           if plus p && (k =? 0)%nat then None else match_here re' (drop k s) in
         match attempt with
         | Some (groups, rest) =>
             Some (if captured p then take k s :: groups else groups, rest)
         | None => match k with O => None | S k' => try k' end
         end) (run_length (cls p) s)
  end.

(** [FindStringSubmatch]: the leftmost match and its groups, the whole
    match first; the empty list (Go's [nil]) when there is none. *)
Fixpoint FindStringSubmatch (re : list piece) (s : string) : list string :=
  match match_here re s with
  | Some (groups, rest) => take (String.length s - String.length rest) s :: groups
  | None =>
      match s with
      | EmptyString => []
      | String _ s' => FindStringSubmatch re s'
      end
  end.

(** [\w]: a letter, a digit or the underscore. *)
Definition word_char (c : ascii) : bool :=
  (((48 <=? code c) && (code c <=? 57)) || ((65 <=? code c) && (code c <=? 90))
   || ((97 <=? code c) && (code c <=? 122)) || (code c =? 95))%N.

(** [\s]: ['\t'], ['\n'], ['\f'], ['\r'] and the space. *)
Definition space_char (c : ascii) : bool :=
  ((code c =? 9) || (code c =? 10) || (code c =? 12) || (code c =? 13) || (code c =? 32))%N.

End GoRegexp.

(* ================================================================== *)
(** ** BSON values *)
(* ================================================================== *)

(** What the builder stores in an [interface{}]: an [int], an [int64], a
    [float64], a string, a [bson.M], or a slice. *)
Inductive Value : Type :=
  | VInt (n : Z)
  | VInt64 (n : Z)
  | VFloat (f : GoStrconv.float64)
  | VStr (s : string)
  | VM (m : gmap string Value)
  | VA (l : list Value).

Abbreviation bsonM := (gmap string Value).
(** [bson.D]: the ordered list of its [bson.E{Key, Value}]. *)
Abbreviation bsonD := (list (string * Value)).

(** The result of a call that can panic. *)
Inductive outcome (A : Type) : Type :=
  | Returns (a : A)
  | Panics (msg : string).
Arguments Returns {A} a.
Arguments Panics {A} msg.

#[global] Instance outcome_ret : MRet outcome := fun A a => Returns a.
#[global] Instance outcome_bind : MBind outcome := fun A B f x =>
  match x with
  | Returns a => f a
  | Panics msg => Panics msg
  end.

(* ================================================================== *)
(** ** Package [builder] *)
(* ================================================================== *)

Module builder.
Import GoStrconv.

Record QueryBuilder : Type := mkQueryBuilder {
  Collection : string;
  Fields : list string;
  Group : option bsonM;
  Sort : option bsonM;
  HavingCond : option bsonM;
  LimitVal : Z;
  OffsetVal : Z;
  Pipeline : list bsonD
}.

Definition set_Collection (qb : QueryBuilder) (c : string) : QueryBuilder :=
  mkQueryBuilder c (Fields qb) (Group qb) (Sort qb) (HavingCond qb) (LimitVal qb)
    (OffsetVal qb) (Pipeline qb).
Definition set_Fields (qb : QueryBuilder) (fs : list string) : QueryBuilder :=
  mkQueryBuilder (Collection qb) fs (Group qb) (Sort qb) (HavingCond qb) (LimitVal qb)
    (OffsetVal qb) (Pipeline qb).
Definition set_Group (qb : QueryBuilder) (g : bsonM) : QueryBuilder :=
  mkQueryBuilder (Collection qb) (Fields qb) (Some g) (Sort qb) (HavingCond qb)
    (LimitVal qb) (OffsetVal qb) (Pipeline qb).
Definition set_Sort (qb : QueryBuilder) (s : bsonM) : QueryBuilder :=
  mkQueryBuilder (Collection qb) (Fields qb) (Group qb) (Some s) (HavingCond qb)
    (LimitVal qb) (OffsetVal qb) (Pipeline qb).
Definition set_LimitVal (qb : QueryBuilder) (n : Z) : QueryBuilder :=
  mkQueryBuilder (Collection qb) (Fields qb) (Group qb) (Sort qb) (HavingCond qb) n
    (OffsetVal qb) (Pipeline qb).
Definition set_OffsetVal (qb : QueryBuilder) (n : Z) : QueryBuilder :=
  mkQueryBuilder (Collection qb) (Fields qb) (Group qb) (Sort qb) (HavingCond qb)
    (LimitVal qb) n (Pipeline qb).
(** [qb.Pipeline = append(qb.Pipeline, stage)]. *)
Definition append_stage (qb : QueryBuilder) (stage : bsonD) : QueryBuilder :=
  mkQueryBuilder (Collection qb) (Fields qb) (Group qb) (Sort qb) (HavingCond qb)
    (LimitVal qb) (OffsetVal qb) (Pipeline qb ++ [stage]).

Definition NewQueryBuilder : QueryBuilder :=
  mkQueryBuilder "" [] None None None 0 0 [].

Definition From (qb : QueryBuilder) (collection : string) : QueryBuilder :=
  set_Collection qb collection.

Definition Join (qb : QueryBuilder) (localField fromCollection foreignField as_ : string)
    : QueryBuilder :=
  append_stage qb
    [("$lookup",
      VM (<["from" := VStr fromCollection]>
          (<["localField" := VStr localField]>
           (<["foreignField" := VStr foreignField]>
            (<["as" := VStr as_]> ∅)))))].

Definition Limit (qb : QueryBuilder) (limit : Z) : QueryBuilder := set_LimitVal qb limit.

Definition Offset (qb : QueryBuilder) (offset : Z) : QueryBuilder := set_OffsetVal qb offset.

(** The external store: [db.Collection(name).Aggregate(ctx, pipeline)]
    answers with an error or a cursor, the list of its documents, each
    decoded or failing to decode. *)
Record Database : Type := mkDatabase {
  Aggregate : string -> list bsonD -> list (bsonM + string) + string
}.

(** The loop over [cursor.Next]: the first document that fails to decode
    ends it with that error. *)
Fixpoint decode_all (cursor : list (bsonM + string)) (results : list bsonM)
    : list bsonM + string :=
  match cursor with
  | [] => inl results
  | inl result :: cursor' => decode_all cursor' (results ++ [result])
  | inr err :: _ => inr err
  end.

(** [Execute]: the builder as the call leaves it, and what the call
    returns. *)
Definition Execute (qb : QueryBuilder) (db : Database)
    : QueryBuilder * (list bsonM + string) :=
  if String.eqb (Collection qb) "" then (qb, inr "collection is not specified")
  else
    let qb := if 0 <? OffsetVal qb
              then append_stage qb [("$skip", VInt64 (OffsetVal qb))] else qb in
    let qb := if 0 <? LimitVal qb
              then append_stage qb [("$limit", VInt64 (LimitVal qb))] else qb in
    match Aggregate db (Collection qb) (Pipeline qb) with
    | inr err => (qb, inr err)
    | inl cursor => (qb, decode_all cursor [])
    end.

Definition buildProjection (qb : QueryBuilder) : bsonM :=
  fold_left (fun projection field => <[field := VInt 1]> projection) (Fields qb) ∅.

Definition Select (qb : QueryBuilder) (fields : list string) : QueryBuilder :=
  let qb := set_Fields qb (Fields qb ++ fields) in
  append_stage qb [("$project", VM (buildProjection qb))].

Definition mapOperatorToMongo (operator : string) : string :=
  if String.eqb operator "=" then "$eq"
  else if String.eqb operator ">" then "$gt"
  else if String.eqb operator "<" then "$lt"
  else if String.eqb operator ">=" then "$gte"
  else if String.eqb operator "<=" then "$lte"
  else if String.eqb operator "!=" then "$ne"
  else if String.eqb operator "+" then "$add"
  else if String.eqb operator "-" then "$subtract"
  else if String.eqb operator "*" then "$multiply"
  else if String.eqb operator "/" then "$divide"
  else "".

Definition convertValue (value : string) : Value :=
  match Atoi value with
  | inl num => VInt num
  | inr _ =>
      match ParseFloat value with
      | inl num => VFloat num
      | inr _ => VStr value
      end
  end.

Definition parseCondition (condition : string) : bsonM :=
  match GoStrings.Fields condition with
  | [field; operator; value] =>
      let value := GoStrings.Trim value "'" in
      let mongoOperator := mapOperatorToMongo operator in
      {[ field := VM {[ mongoOperator := convertValue value ]} ]}
  | _ => ∅
  end.

Definition parseConditions (conditions : string) : bsonM :=
  let conditions := GoStrings.TrimSpace conditions in
  if GoStrings.Contains (GoStrings.ToUpper conditions) " AND " then
    let parts := GoStrings.Split conditions " AND " in
    let andConditions :=
      fold_left (fun acc part => acc ++ [VM (parseCondition (GoStrings.TrimSpace part))])
        parts [] in
    {[ "$and" := VA andConditions ]}
  else if GoStrings.Contains (GoStrings.ToUpper conditions) " OR " then
    let parts := GoStrings.Split conditions " OR " in
    let orConditions :=
      fold_left (fun acc part => acc ++ [VM (parseCondition (GoStrings.TrimSpace part))])
        parts [] in
    {[ "$or" := VA orConditions ]}
  else parseCondition conditions.

Definition parseFieldOrValue (input : string) : Value :=
  let input := GoStrings.TrimSpace input in
  match ParseFloat input with
  | inl num => VFloat num
  | inr _ =>
      if GoStrings.HasPrefix (GoStrings.ToUpper input) "SUM(" then
        let field := GoStrings.TrimSuffix (GoStrings.TrimPrefix input "SUM(") ")" in
        VM {[ "$sum" := VStr (String.append "$" field) ]}
      else if GoStrings.HasPrefix (GoStrings.ToUpper input) "COUNT(" then
        VM {[ "$sum" := VInt 1 ]}
      else VStr (String.append "$" input)
  end.

(** [[\w\(\)\*]]. *)
Definition operand_char (c : ascii) : bool :=
  GoRegexp.word_char c || Ascii.eqb c "(" || Ascii.eqb c ")" || Ascii.eqb c "*".

(** [[+\-*/><=]]. *)
Definition operator_char (c : ascii) : bool :=
  Ascii.eqb c "+" || Ascii.eqb c "-" || Ascii.eqb c "*" || Ascii.eqb c "/"
  || Ascii.eqb c ">" || Ascii.eqb c "<" || Ascii.eqb c "=".

(** [([\w\(\)\*]+)\s*([+\-*/><=]+)\s*([\w\(\)\*]+)]. *)
Definition expression_re : list GoRegexp.piece :=
  [ GoRegexp.Piece operand_char true true;
    GoRegexp.Piece GoRegexp.space_char false false;
    GoRegexp.Piece operator_char true true;
    GoRegexp.Piece GoRegexp.space_char false false;
    GoRegexp.Piece operand_char true true ].

Definition parseExpression (expression : string) : bsonM + string :=
  let expression := GoStrings.TrimSpace expression in
  match GoRegexp.FindStringSubmatch expression_re expression with
  | _ :: operand1 :: operator :: operand2 :: _ =>
      let mongoOperator := mapOperatorToMongo operator in
      if String.eqb mongoOperator "" then inr "unsupported operator in expression"
      else inl {[ "$expr" :=
                    VM {[ mongoOperator :=
                            VA [parseFieldOrValue operand1; parseFieldOrValue operand2] ]} ]}
  | _ => inr "invalid expression format"
  end.

Definition Match (qb : QueryBuilder) (condition : string) : QueryBuilder :=
  let filter :=
    match parseExpression condition with
    | inl filter => filter
    | inr _ => parseConditions condition
    end in
  append_stage qb [("$match", VM filter)].

Definition Having (qb : QueryBuilder) (condition : string) : QueryBuilder :=
  let filter :=
    match parseExpression condition with
    | inl filter => filter
    | inr _ => parseConditions condition
    end in
  append_stage qb [("$match", VM filter)].

Definition GroupBy (qb : QueryBuilder) (field : string) : QueryBuilder :=
  let group : bsonM := {[ "_id" := VStr (String.append "$" field) ]} in
  append_stage (set_Group qb group) [("$group", VM group)].

Definition OrderBy (qb : QueryBuilder) (order : string) : QueryBuilder :=
  let parts := GoStrings.Split order " " in
  let sort : bsonM :=
    match parts with
    | [field; dir] =>
        let direction := if String.eqb (GoStrings.ToUpper dir) "DESC" then -1 else 1 in
        <[field := VInt direction]> ∅
    | _ => ∅
    end in
  append_stage (set_Sort qb sort) [("$sort", VM sort)].

Definition AggregationLimit (qb : QueryBuilder) (n : Z) : QueryBuilder :=
  if 0 <? n then append_stage (set_LimitVal qb n) [("$limit", VInt64 n)] else qb.

Definition AggregationOffset (qb : QueryBuilder) (n : Z) : QueryBuilder :=
  if 0 <? n then append_stage qb [("$skip", VInt64 n)] else qb.

(** [parseAlias]: [parts[1]] panics when [SplitN] found no separator. *)
Definition parseAlias (field : string) : outcome string :=
  if GoStrings.Contains (GoStrings.ToUpper field) " AS " then
    match GoStrings.SplitN field " AS " 2 with
    | _ :: alias :: _ => Returns (GoStrings.TrimSpace alias)
    | [_] => Panics "index out of range [1] with length 1"
    | [] => Panics "index out of range [1] with length 0"
    end
  else Returns field.

Definition parseAggregation (field : string) : bsonM + string :=
  let field := GoStrings.TrimSpace field in
  if GoStrings.HasPrefix (GoStrings.ToUpper field) "SUM(" then
    let innerField := GoStrings.TrimSuffix (GoStrings.TrimPrefix field "SUM(") ")" in
    inl {[ "$sum" := VStr (String.append "$" (GoStrings.TrimSpace innerField)) ]}
  else if GoStrings.HasPrefix (GoStrings.ToUpper field) "COUNT(" then
    inl {[ "$sum" := VInt 1 ]}
  else inr "unsupported aggregation function".

Fixpoint nested_group_loop (aggregations : list string) (nestedGroup : bsonM)
    : outcome bsonM :=
  match aggregations with
  | [] => Returns nestedGroup
  | agg :: rest =>
      alias ← parseAlias agg;
      match parseAggregation agg with
      | inr _ => nested_group_loop rest nestedGroup
      | inl aggregation => nested_group_loop rest (<[alias := VM aggregation]> nestedGroup)
      end
  end.

Definition NestedGroupBy (qb : QueryBuilder) (field : string) (aggregations : list string)
    : outcome QueryBuilder :=
  nestedGroup ← nested_group_loop aggregations
                  {[ "_id" := VStr (String.append "$" field) ]};
  Returns (append_stage qb [("$group", VM nestedGroup)]).

Record UpdateBuilder : Type := mkUpdateBuilder {
  ub_Collection : string;
  ub_UpdateData : bsonM;
  ub_Filter : bsonM;
  ub_Multi : bool
}.

Definition NewUpdateBuilder (collection : string) : UpdateBuilder :=
  mkUpdateBuilder collection ∅ ∅ false.

(** [UpdateBuilder.Where] (and, word for word, [DeleteBuilder.Where]). *)
Definition Where (ub : UpdateBuilder) (condition : string) : UpdateBuilder :=
  mkUpdateBuilder (ub_Collection ub) (ub_UpdateData ub) (parseConditions condition)
    (ub_Multi ub).

(** [UpdateBuilder.Set]: the data becomes the value of the key [$set]. *)
Definition Set_ (ub : UpdateBuilder) (data : bsonM) : UpdateBuilder :=
  mkUpdateBuilder (ub_Collection ub) (<["$set" := VM data]> (ub_UpdateData ub))
    (ub_Filter ub) (ub_Multi ub).

Definition SetMulti (ub : UpdateBuilder) (multi : bool) : UpdateBuilder :=
  mkUpdateBuilder (ub_Collection ub) (ub_UpdateData ub) (ub_Filter ub) multi.

(** The store as the update builder uses it: [UpdateOne] and [UpdateMany]
    on a collection, a filter and an update document answer with the
    modified count or an error. *)
Record UpdateStore : Type := mkUpdateStore {
  UpdateOne : string -> bsonM -> bsonM -> Z + string;
  UpdateMany : string -> bsonM -> bsonM -> Z + string
}.

(** [UpdateBuilder.Execute]. *)
Definition UpdateExecute (ub : UpdateBuilder) (db : UpdateStore) : Z + string :=
  if String.eqb (ub_Collection ub) "" then inr "collection name is not specified"
  else
    let result :=
      if ub_Multi ub
      then UpdateMany db (ub_Collection ub) (ub_Filter ub) (ub_UpdateData ub)
      else UpdateOne db (ub_Collection ub) (ub_Filter ub) (ub_UpdateData ub) in
    match result with
    | inr err => inr (String.append "failed to update documents: " err)
    | inl modifiedCount => inl modifiedCount
    end.

Record InsertBuilder : Type := mkInsertBuilder {
  ib_Collection : string;
  ib_Fields : list string;
  ib_ValuesList : list (list Value)
}.

Definition NewInsertBuilder : InsertBuilder := mkInsertBuilder "" [] [].

Definition InsertInto (ib : InsertBuilder) (collection : string) (fields : list string)
    : InsertBuilder :=
  mkInsertBuilder collection fields (ib_ValuesList ib).

(** [InsertBuilder.Values] panics on a row of the wrong length. *)
Definition Values (ib : InsertBuilder) (values : list Value) : outcome InsertBuilder :=
  if negb (length values =? length (ib_Fields ib))%nat
  then Panics "number of values must match the number of fields"
  else Returns (mkInsertBuilder (ib_Collection ib) (ib_Fields ib)
                  (ib_ValuesList ib ++ [values])).

(** The inner loop of [InsertBuilder.Execute]: [document[field] = row[i]]
    for the fields from position [i] on; [row[i]] panics past the end of
    the row. *)
Fixpoint fill_document (fields : list string) (row : list Value) (i : nat)
    (document : bsonM) : outcome bsonM :=
  match fields with
  | [] => Returns document
  | field :: fields' =>
      match row !! i with
      | Some v => fill_document fields' row (S i) (<[field := v]> document)
      | None =>
          Panics (String.append "index out of range ["
                    (String.append (pretty i)
                       (String.append "] with length " (pretty (length row)))))
      end
  end.

(** The outer loop: one document for each row, in order. *)
Fixpoint fill_documents (fields : list string) (rows : list (list Value))
    (documents : list bsonM) : outcome (list bsonM) :=
  match rows with
  | [] => Returns documents
  | row :: rows' =>
      document ← fill_document fields row 0 ∅;
      fill_documents fields rows' (documents ++ [document])
  end.

(** The store as the insert builder uses it: the inserted identifier(s) or
    an error. *)
Record InsertStore : Type := mkInsertStore {
  InsertOne : string -> bsonM -> Value + string;
  InsertMany : string -> list bsonM -> list Value + string
}.

(** [InsertBuilder.Execute]. *)
Definition InsertExecute (ib : InsertBuilder) (db : InsertStore) : outcome (Value + string) :=
  if String.eqb (ib_Collection ib) "" then Returns (inr "collection name is not specified")
  else
    documents ← fill_documents (ib_Fields ib) (ib_ValuesList ib) [];
    match documents with
    | [document] =>
        match InsertOne db (ib_Collection ib) document with
        | inr err => Returns (inr (String.append "failed to insert document: " err))
        | inl insertedID => Returns (inl insertedID)
        end
    | _ :: _ :: _ =>
        match InsertMany db (ib_Collection ib) documents with
        | inr err => Returns (inr (String.append "failed to insert documents: " err))
        | inl insertedIDs => Returns (inl (VA insertedIDs))
        end
    | [] => Returns (inr "no documents to insert")
    end.

(** [mongo.IndexModel], as [CreateIndexBuilder.Index] fills it: the keys and
    the name option. *)
Record IndexModel : Type := mkIndexModel { im_Keys : bsonD; im_Name : string }.

Record CreateIndexBuilder : Type := mkCreateIndexBuilder {
  cib_Collection : string;
  cib_Indexes : list IndexModel
}.

Definition NewCreateIndexBuilder (collection : string) : CreateIndexBuilder :=
  mkCreateIndexBuilder collection [].

(** The loop of [CreateIndexBuilder.Index] over the comma-separated parts: a
    part that is not a field and a direction is passed over. *)
Fixpoint index_keys_loop (fieldParts : list string) (keys : bsonD) : bsonD :=
  match fieldParts with
  | [] => keys
  | part :: fieldParts' =>
      let part := GoStrings.TrimSpace part in
      match GoStrings.Fields part with
      | [field; dir] =>
          let direction := if String.eqb (GoStrings.ToUpper dir) "DESC" then -1 else 1 in
          index_keys_loop fieldParts' (keys ++ [(field, VInt direction)])
      | _ => index_keys_loop fieldParts' keys
      end
  end.

(** [CreateIndexBuilder.Index]. *)
Definition Index (ib : CreateIndexBuilder) (name fields : string) : CreateIndexBuilder :=
  let keys := index_keys_loop (GoStrings.Split fields ",") [] in
  mkCreateIndexBuilder (cib_Collection ib) (cib_Indexes ib ++ [mkIndexModel keys name]).

End builder.

(* ================================================================== *)
(** ** Package [parser] *)
(* ================================================================== *)

Module parser.
Import builder.

Record SQLParser : Type := mkSQLParser { query : string }.

Definition NewSQLParser (query : string) : SQLParser := mkSQLParser query.

(** [extractFields]; [Split] never returns an empty slice, so [parts[0]]
    is always there. *)
Definition extractFields (parts : list string) : outcome (list string * string) :=
  match parts with
  | [] => Panics "index out of range [0] with length 0"
  | p0 :: tl =>
      if negb (String.eqb (GoStrings.ToUpper p0) "SELECT")
      then Returns ([], GoStrings.Join parts " ")
      else
        let rest := GoStrings.Join tl " " in
        let fromIndex := GoStrings.Index (GoStrings.ToUpper rest) " FROM " in
        let '(fields, rest) :=
          if negb (fromIndex =? -1)
          then (GoStrings.Split (GoStrings.slice_to rest fromIndex) ",",
                GoStrings.slice_from rest (fromIndex + GoStrings.len " FROM "))
          else ([], rest) in
        Returns (map GoStrings.TrimSpace fields, rest)
  end.

(** [extractCollection]: [parts[1]] panics when no space follows the
    collection name. *)
Definition extractCollection (query : string) : outcome (string * string) :=
  match GoStrings.SplitN query " " 2 with
  | p0 :: p1 :: _ => Returns (p0, p1)
  | [_] => Panics "index out of range [1] with length 1"
  | [] => Panics "index out of range [0] with length 0"
  end.

Fixpoint next_keyword_loop (keywords : list string) (query : string) : Z :=
  match keywords with
  | [] => -1
  | keyword :: keywords' =>
      let keywordIndex := GoStrings.Index (GoStrings.ToUpper query) keyword in
      if negb (keywordIndex =? -1) then keywordIndex
      else next_keyword_loop keywords' query
  end.

Definition findNextKeyword (query : string) : Z :=
  next_keyword_loop ["WHERE"; "GROUP BY"; "HAVING"; "ORDER BY"; "LIMIT"] query.

Definition extractClause (keyword query : string) : string * string :=
  let keywordIndex := GoStrings.Index (GoStrings.ToUpper query) keyword in
  if keywordIndex =? -1 then ("", query)
  else
    let remaining := GoStrings.slice_from query (keywordIndex + GoStrings.len keyword) in
    let nextKeywordIndex := findNextKeyword remaining in
    if nextKeywordIndex =? -1 then (GoStrings.TrimSpace remaining, "")
    else (GoStrings.TrimSpace (GoStrings.slice_to remaining nextKeywordIndex),
          GoStrings.TrimSpace (GoStrings.slice_from remaining nextKeywordIndex)).

Definition parseLimit (limit : string) : Z + string :=
  match GoStrconv.ParseInt limit with
  | inl parsedLimit => inl parsedLimit
  | inr _ => inr "invalid LIMIT value"
  end.

(** One optional clause of [ParseSQL]: when [rest] mentions [keyword], its
    clause goes to the builder method [method] and [rest] becomes what
    follows the clause. *)
Definition parse_clause (keyword : string) (method : QueryBuilder -> string -> QueryBuilder)
    (st : QueryBuilder * string) : QueryBuilder * string :=
  let '(qb, rest) := st in
  if GoStrings.Contains (GoStrings.ToUpper rest) keyword then
    let '(clause, remaining) := extractClause keyword rest in
    (method qb (GoStrings.TrimSpace clause), remaining)
  else (qb, rest).

(** [ParseSQL] up to the ORDER BY clause: the builder and the text still
    to be read. *)
Definition parse_clauses (sp : SQLParser) : outcome (QueryBuilder * string) :=
  let query := GoStrings.TrimSpace (query sp) in
  let qb := NewQueryBuilder in
  '(fields, rest) ← extractFields (GoStrings.Split query " ");
  let qb := set_Fields qb fields in
  '(collection, rest) ← extractCollection rest;
  let qb := set_Collection qb collection in
  Returns (parse_clause "ORDER BY" OrderBy
             (parse_clause "HAVING" Having
                (parse_clause "GROUP BY" GroupBy
                   (parse_clause "WHERE" Match (qb, rest))))).

(** The LIMIT clause, which ends [ParseSQL]: the builder, or the error. *)
Definition parse_limit_clause (st : QueryBuilder * string) : QueryBuilder + string :=
  let '(qb, rest) := st in
  if GoStrings.Contains (GoStrings.ToUpper rest) "LIMIT" then
    let '(limitClause, _) := extractClause "LIMIT" rest in
    match parseLimit (GoStrings.TrimSpace limitClause) with
    | inr err => inr err
    | inl limit => inl (Limit qb limit)
    end
  else inl qb.

Definition ParseSQL (sp : SQLParser) : outcome (QueryBuilder + string) :=
  st ← parse_clauses sp;
  Returns (parse_limit_clause st).

End parser.

(* ================================================================== *)
(** ** The vocabulary of the statements *)
(* ================================================================== *)

Import GoStrconv builder parser.

Definition skip_stage (n : Z) : bsonD := [("$skip", VInt64 n)].

Definition limit_stage (n : Z) : bsonD := [("$limit", VInt64 n)].

(** The stages [Execute] adds to the pipeline it was given. *)
Definition deferred_stages (qb : QueryBuilder) : list bsonD :=
  (if 0 <? OffsetVal qb then [skip_stage (OffsetVal qb)] else [])
  ++ (if 0 <? LimitVal qb then [limit_stage (LimitVal qb)] else []).

(** What the store answers when it is handed [stages] for [qb]'s
    collection. *)
Definition store_answer (db : Database) (qb : QueryBuilder) (stages : list bsonD)
    : list bsonM + string :=
  match Aggregate db (Collection qb) stages with
  | inr err => inr err
  | inl cursor => decode_all cursor []
  end.

(** The builder calls that add a stage or name the collection and leave the
    deferred offset and limit alone. *)
Inductive call : Type :=
  | CallFrom (collection : string)
  | CallJoin (localField fromCollection foreignField as_ : string)
  | CallSelect (fields : list string)
  | CallMatch (condition : string)
  | CallGroupBy (field : string)
  | CallHaving (condition : string)
  | CallOrderBy (order : string)
  | CallAggregationOffset (n : Z).

Definition apply_call (qb : QueryBuilder) (c : call) : QueryBuilder :=
  match c with
  | CallFrom collection => From qb collection
  | CallJoin localField fromCollection foreignField as_ =>
      Join qb localField fromCollection foreignField as_
  | CallSelect fields => Select qb fields
  | CallMatch condition => Match qb condition
  | CallGroupBy field => GroupBy qb field
  | CallHaving condition => Having qb condition
  | CallOrderBy order => OrderBy qb order
  | CallAggregationOffset n => AggregationOffset qb n
  end.

(** A chain of calls, first call first. *)
Definition apply_calls (qb : QueryBuilder) (calls : list call) : QueryBuilder :=
  fold_left apply_call calls qb.

(** The comparison tokens, and the arithmetic ones the mapper also knows. *)
Definition comparison_tokens : list string := ["="; "!="; "<"; ">"; "<="; ">="].

Definition arithmetic_tokens : list string := ["+"; "-"; "*"; "/"].

Definition match_stage (filter : bsonM) : bsonD := [("$match", VM filter)].

Definition sort_stage (sort : bsonM) : bsonD := [("$sort", VM sort)].

Fixpoint all_digits (s : string) : bool :=
  match s with
  | EmptyString => true
  | String c s' => is_digit c && all_digits s'
  end.

(** The number a string of decimal digits writes, after the digits [acc]
    already read. *)
Fixpoint decimal_value_from (s : string) (acc : Z) : Z :=
  match s with
  | EmptyString => acc
  | String c s' => decimal_value_from s' (acc * 10 + digit_val c)
  end.

Definition decimal_value (s : string) : Z := decimal_value_from s 0.

(** [int64_literal s n]: [s] is an optional sign followed by one or more
    decimal digits, and writes [n], an [int64]. *)
Inductive int64_literal : string -> Z -> Prop :=
  | lit_unsigned (ds : string) :
      ds <> "" -> all_digits ds = true -> decimal_value ds < 2 ^ 63 ->
      int64_literal ds (decimal_value ds)
  | lit_plus (ds : string) :
      ds <> "" -> all_digits ds = true -> decimal_value ds < 2 ^ 63 ->
      int64_literal (String "+" ds) (decimal_value ds)
  | lit_minus (ds : string) :
      ds <> "" -> all_digits ds = true -> decimal_value ds <= 2 ^ 63 ->
      int64_literal (String "-" ds) (- decimal_value ds).

(** Every method of the query builder, as a call. *)
Inductive builder_call : Type :=
  | BFrom (collection : string)
  | BJoin (localField fromCollection foreignField as_ : string)
  | BLimit (limit : Z)
  | BOffset (offset : Z)
  | BSelect (fields : list string)
  | BMatch (condition : string)
  | BGroupBy (field : string)
  | BNestedGroupBy (field : string) (aggregations : list string)
  | BHaving (condition : string)
  | BOrderBy (order : string)
  | BAggregationLimit (n : Z)
  | BAggregationOffset (n : Z).

Definition apply_builder_call (qb : QueryBuilder) (c : builder_call) : outcome QueryBuilder :=
  match c with
  | BFrom collection => Returns (From qb collection)
  | BJoin localField fromCollection foreignField as_ =>
      Returns (Join qb localField fromCollection foreignField as_)
  | BLimit limit => Returns (Limit qb limit)
  | BOffset offset => Returns (Offset qb offset)
  | BSelect fields => Returns (Select qb fields)
  | BMatch condition => Returns (Match qb condition)
  | BGroupBy field => Returns (GroupBy qb field)
  | BNestedGroupBy field aggregations => NestedGroupBy qb field aggregations
  | BHaving condition => Returns (Having qb condition)
  | BOrderBy order => Returns (OrderBy qb order)
  | BAggregationLimit n => Returns (AggregationLimit qb n)
  | BAggregationOffset n => Returns (AggregationOffset qb n)
  end.

(** A chain of method calls, first call first; a panic ends it. *)
Fixpoint apply_builder_calls (qb : QueryBuilder) (calls : list builder_call)
    : outcome QueryBuilder :=
  match calls with
  | [] => Returns qb
  | c :: calls' => qb' ← apply_builder_call qb c; apply_builder_calls qb' calls'
  end.

(** Some character, and every character, of a string passes a test. *)
Fixpoint any_char (f : ascii -> bool) (s : string) : bool :=
  match s with
  | EmptyString => false
  | String c s' => f c || any_char f s'
  end.

Fixpoint all_chars (f : ascii -> bool) (s : string) : bool :=
  match s with
  | EmptyString => true
  | String c s' => f c && all_chars f s'
  end.

(** The first character of a string passes a test. *)
Definition first_char (f : ascii -> bool) (s : string) : bool :=
  match s with
  | String c _ => f c
  | EmptyString => false
  end.

(** The first character of a string, if any, fails a test. *)
Definition starts_clean (f : ascii -> bool) (s : string) : bool := negb (first_char f s).

(** The inner loop of [GoRegexp.match_here], by itself: the factor [p]
    tries the lengths from [k] down, [cont] matching the rest of the
    pattern. *)
Fixpoint try_lengths (p : GoRegexp.piece) (cont : string -> option (list string * string))
    (s : string) (k : nat) : option (list string * string) :=
  let attempt :=
    if GoRegexp.plus p && (k =? 0)%nat then None else cont (GoStrings.drop k s) in
  match attempt with
  | Some (groups, rest) =>
      Some (if GoRegexp.captured p then GoStrings.take k s :: groups else groups, rest)
  | None => match k with O => None | S k' => try_lengths p cont s k' end
  end.

(** The operator tags of the store. *)
Definition operator_tags : list string :=
  ["$eq"; "$gt"; "$lt"; "$gte"; "$lte"; "$ne"; "$add"; "$subtract"; "$multiply"; "$divide"].

(** The text [ParseSQL] takes the collection from: what follows the first
    [" FROM "] of the upper-cased text, or the whole text when there is
    none. *)
Definition after_from (text : string) : string :=
  let fromIndex := GoStrings.Index (GoStrings.ToUpper text) " FROM " in
  if fromIndex =? -1 then text else GoStrings.slice_from text (fromIndex + 6).

(** The clause keywords, in the order in which the parser looks for the
    end of a clause. *)
Definition clause_keywords : list string :=
  ["WHERE"; "GROUP BY"; "HAVING"; "ORDER BY"; "LIMIT"].

(** [text] holds [keyword] in some letter case, wherever it stands. *)
Definition mentions (text keyword : string) : bool :=
  GoStrings.Contains (GoStrings.ToUpper text) keyword.

(** [clause_text tail text]: of the text [tail] that follows the keyword of
    a clause, [text] belongs to the clause.  That is all of [tail] when it
    mentions no clause keyword; otherwise it is what stands before the
    first occurrence of [k], the first keyword of [clause_keywords] that
    [tail] mentions: not always the keyword that stands first in [tail]. *)
Inductive clause_text (tail : string) : string -> Prop :=
  | clause_to_end :
      Forall (fun k => mentions tail k = false) clause_keywords ->
      clause_text tail tail
  | clause_to_keyword (before after : list string) (k text more : string) :
      clause_keywords = before ++ k :: after ->
      Forall (fun k' => mentions tail k' = false) before ->
      tail = text +:+ more ->
      GoStrings.Index (GoStrings.ToUpper tail) k = GoStrings.len text ->
      clause_text tail text.

(** The document [InsertBuilder.Execute] makes of a row: each field with
    the value at its position, a later field of the same name replacing an
    earlier one. *)
Definition row_document (fields : list string) (row : list Value) : bsonM :=
  fold_left (fun document fv => <[fst fv := snd fv]> document) (zip fields row) ∅.

(** Every row of an insert builder has one value for each field. *)
Definition rows_match_fields (ib : InsertBuilder) : Prop :=
  Forall (fun row => length row = length (ib_Fields ib)) (ib_ValuesList ib).

(** The calls of the update builder. *)
Inductive update_call : Type :=
  | USet (data : bsonM)
  | UWhere (condition : string)
  | USetMulti (multi : bool).

Definition apply_update_call (ub : UpdateBuilder) (c : update_call) : UpdateBuilder :=
  match c with
  | USet data => Set_ ub data
  | UWhere condition => Where ub condition
  | USetMulti multi => SetMulti ub multi
  end.

(** The argument of the last [Set], [Where] and [SetMulti] of a chain. *)
Definition last_set (calls : list update_call) : option bsonM :=
  last (omap (fun c => match c with USet data => Some data | _ => None end) calls).

Definition last_where (calls : list update_call) : option string :=
  last (omap (fun c => match c with UWhere condition => Some condition | _ => None end) calls).

Definition last_multi (calls : list update_call) : option bool :=
  last (omap (fun c => match c with USetMulti multi => Some multi | _ => None end) calls).

(** A chain of update-builder calls, first call first. *)
Definition apply_update_calls (ub : UpdateBuilder) (calls : list update_call) : UpdateBuilder :=
  fold_left apply_update_call calls ub.

Definition is_comma (c : ascii) : bool := Ascii.eqb c ",".

(** A well-formed index key: a field name that is not empty and holds no
    white space and no comma, with the direction 1 or -1. *)
Definition index_key_ok (key : string * Value) : Prop :=
  fst key <> "" /\ any_char GoStrings.is_space (fst key) = false
  /\ any_char is_comma (fst key) = false
  /\ (snd key = VInt 1 \/ snd key = VInt (-1)).

(** The key of a pipeline stage. *)
Definition stage_key (stage : bsonD) : string :=
  match stage with
  | (key, _) :: _ => key
  | [] => ""
  end.

(** A store with no documents, and a builder on the collection [orders]. *)
Definition empty_store : Database := mkDatabase (fun _ _ => inl []).

Definition orders_builder : QueryBuilder := From NewQueryBuilder "orders".

(* ================================================================== *)
(** ** The model on the examples of the documentation *)
(* ================================================================== *)

Example ex_ToUpper : GoStrings.ToUpper "a > 1 and b_Z{" = "A > 1 AND B_Z{".
Proof. reflexivity. Qed.

Example ex_TrimSpace : GoStrings.TrimSpace "  a b 	 " = "a b".
Proof. reflexivity. Qed.

Example ex_Split : GoStrings.Split "a AND b AND  AND c" " AND " = ["a"; "b"; ""; "c"].
Proof. reflexivity. Qed.

Example ex_Split1 : GoStrings.Split "" " " = [""].
Proof. reflexivity. Qed.

Example ex_Split2 : GoStrings.Split "a  b " " " = ["a"; ""; "b"; ""].
Proof. reflexivity. Qed.

Example ex_SplitN : GoStrings.SplitN "a AS b AS c" " AS " 2 = ["a"; "b AS c"].
Proof. reflexivity. Qed.

Example ex_SplitN1 : GoStrings.SplitN "abc" " " 2 = ["abc"].
Proof. reflexivity. Qed.

Example ex_Fields : GoStrings.Fields "  price  >   100 " = ["price"; ">"; "100"].
Proof. reflexivity. Qed.

Example ex_Trim : GoStrings.Trim "'it's'" "'" = "it's".
Proof. reflexivity. Qed.

Example ex_Index : GoStrings.Index "a FROM b" " FROM " = 1 /\ GoStrings.Index "ab" "c" = -1
  /\ GoStrings.Index "" "" = 0.
Proof. by_computation. Qed.

Example ex_Join : GoStrings.Join ["a"; "b"; "c"] " " = "a b c".
Proof. reflexivity. Qed.

Example ex_TrimSuffix : GoStrings.TrimSuffix (GoStrings.TrimPrefix "SUM(amount)" "SUM(") ")" = "amount".
Proof. reflexivity. Qed.

Example ex_ParseInt :
  GoStrconv.ParseInt "10" = inl 10 /\ GoStrconv.ParseInt "-5" = inl (-5)
  /\ GoStrconv.ParseInt "+7" = inl 7 /\ GoStrconv.ParseInt "" = inr GoStrconv.ErrSyntax
  /\ GoStrconv.ParseInt "-" = inr GoStrconv.ErrSyntax
  /\ GoStrconv.ParseInt "1_0" = inr GoStrconv.ErrSyntax
  /\ GoStrconv.ParseInt "10 OFFSET 20" = inr GoStrconv.ErrSyntax
  /\ GoStrconv.ParseInt "9223372036854775807" = inl 9223372036854775807
  /\ GoStrconv.ParseInt "9223372036854775808" = inr GoStrconv.ErrRange
  /\ GoStrconv.ParseInt "-9223372036854775808" = inl (-9223372036854775808)
  /\ GoStrconv.ParseInt "99999999999999999999999" = inr GoStrconv.ErrRange.
Proof. by_computation. Qed.

Example ex_ParseFloat :
  GoStrconv.ParseFloat "100" = inl (GoStrconv.F64_near false false 100 0)
  /\ GoStrconv.ParseFloat "4.5" = inl (GoStrconv.F64_near false false 45 (-1))
  /\ GoStrconv.ParseFloat "-0.05e3" = inl (GoStrconv.F64_near true false 5 1)
  /\ GoStrconv.ParseFloat "price" = inr GoStrconv.ErrSyntax
  /\ GoStrconv.ParseFloat "." = inr GoStrconv.ErrSyntax
  /\ GoStrconv.ParseFloat "1e" = inr GoStrconv.ErrSyntax
  /\ GoStrconv.ParseFloat "0x1" = inr GoStrconv.ErrSyntax
  /\ GoStrconv.ParseFloat "0x1p-2" = inl (GoStrconv.F64_near false true 1 (-2))
  /\ GoStrconv.ParseFloat "Inf" = inl (GoStrconv.F64_inf false)
  /\ GoStrconv.ParseFloat "-infinity" = inl (GoStrconv.F64_inf true)
  /\ GoStrconv.ParseFloat "nan" = inl GoStrconv.F64_nan
  /\ GoStrconv.ParseFloat "infin" = inr GoStrconv.ErrSyntax
  /\ GoStrconv.ParseFloat "1e400" = inr GoStrconv.ErrRange
  /\ GoStrconv.ParseFloat "1e-400" = inl (GoStrconv.F64_near false false 1 (-400))
  /\ GoStrconv.ParseFloat "1_0" = inl (GoStrconv.F64_near false false 10 0)
  /\ GoStrconv.ParseFloat "_10" = inr GoStrconv.ErrSyntax
  /\ GoStrconv.ParseFloat "COUNT(*)" = inr GoStrconv.ErrSyntax.
Proof. by_computation. Qed.

Example ex_parseConditions_eq :
  builder.parseConditions "status = 'active'"
  = {[ "status" := VM {[ "$eq" := VStr "active" ]} ]}.
Proof. by_computation. Qed.

Example ex_parseExpression_sum :
  builder.parseExpression "SUM(amount) > 5000"
  = inl {[ "$expr" := VM {[ "$gt" := VA [VM {[ "$sum" := VStr "$amount" ]};
                                         VFloat (GoStrconv.F64_near false false 5000 0)] ]} ]}.
Proof. by_computation. Qed.

Example ex_parseExpression_star :
  GoRegexp.FindStringSubmatch builder.expression_re "a**b" = ["a**b"; "a*"; "*"; "b"]
  /\ GoRegexp.FindStringSubmatch builder.expression_re "x y >= 3 z" = ["y >= 3"; "y"; ">="; "3"]
  /\ GoRegexp.FindStringSubmatch builder.expression_re "price" = []
  /\ GoRegexp.FindStringSubmatch builder.expression_re "price ~ 100" = []
  /\ GoRegexp.FindStringSubmatch builder.expression_re "SUM(amount) / COUNT(*) > 1000"
     = ["SUM(amount) / COUNT(*)"; "SUM(amount)"; "/"; "COUNT(*)"].
Proof. by_computation. Qed.

Example ex_NestedGroupBy :
  builder.NestedGroupBy builder.NewQueryBuilder "region"
    ["SUM(amount) AS total"; "COUNT(*) AS cnt"; "MAX(x) AS m"]
  = Returns (builder.append_stage builder.NewQueryBuilder
      [("$group", VM (<["_id" := VStr "$region"]>
                      (<["total" := VM {[ "$sum" := VStr "$amount) AS total" ]}]>
                       (<["cnt" := VM {[ "$sum" := VInt 1 ]}]> ∅))))]).
Proof. by_computation. Qed.

Example ex_ParseSQL_limit :
  parser.ParseSQL (parser.NewSQLParser "SELECT a, b FROM orders WHERE status = 'active' ORDER BY a DESC LIMIT 10")
  = Returns (inl (builder.mkQueryBuilder "orders" ["a"; "b"] None
       (Some {[ "a" := VInt (-1) ]}) None 10 0
       [ [("$match", VM {[ "status" := VM {[ "$eq" := VStr "active" ]} ]})];
         [("$sort", VM {[ "a" := VInt (-1) ]})] ])).
Proof. by_computation. Qed.

Example ex_ParseSQL_offset :
  parser.ParseSQL (parser.NewSQLParser "SELECT a FROM orders LIMIT 10 OFFSET 20")
  = Returns (inr "invalid LIMIT value").
Proof. by_computation. Qed.

Example ex_ParseSQL_panic :
  parser.ParseSQL (parser.NewSQLParser "SELECT a FROM orders")
  = Panics "index out of range [1] with length 1".
Proof. by_computation. Qed.

(* ================================================================== *)
(** ** Finalization: the deferred skip and limit stages *)
(* ================================================================== *)

Section Finalization.

Variable db : Database.

Lemma Execute_unspecified (qb : QueryBuilder) :
  Collection qb = "" -> Execute qb db = (qb, inr "collection is not specified").
Proof. intros H. unfold Execute. now rewrite H. Qed.

Lemma Execute_compiled (qb : QueryBuilder) :
  Collection qb <> "" ->
  Pipeline (fst (Execute qb db)) = Pipeline qb ++ deferred_stages qb
  /\ snd (Execute qb db) = store_answer db qb (Pipeline qb ++ deferred_stages qb).
Proof.
  intros Hc. unfold Execute, deferred_stages, store_answer.
  destruct (String.eqb_spec (Collection qb) "") as [E | _]; [contradiction |].
  destruct qb as [c fs g s h lim off p]; cbn.
  unfold append_stage, skip_stage, limit_stage; cbn.
  destruct (0 <? off); cbn; destruct (0 <? lim); cbn;
    rewrite <- ?app_assoc, ?app_nil_r; cbn;
    match goal with |- context [Aggregate db ?c ?p] => destruct (Aggregate db c p) end;
    cbn; split; reflexivity.
Qed.

Lemma apply_call_set_OffsetVal (qb : QueryBuilder) (c : call) (o : Z) :
  apply_call (set_OffsetVal qb o) c = set_OffsetVal (apply_call qb c) o.
Proof.
  destruct qb, c; try reflexivity.
  cbn. unfold AggregationOffset. destruct (0 <? n); reflexivity.
Qed.

Lemma apply_call_set_LimitVal (qb : QueryBuilder) (c : call) (l : Z) :
  apply_call (set_LimitVal qb l) c = set_LimitVal (apply_call qb c) l.
Proof.
  destruct qb, c; try reflexivity.
  cbn. unfold AggregationOffset. destruct (0 <? n); reflexivity.
Qed.

Lemma apply_calls_set_OffsetVal (calls : list call) (qb : QueryBuilder) (o : Z) :
  apply_calls (set_OffsetVal qb o) calls = set_OffsetVal (apply_calls qb calls) o.
Proof.
  revert qb. induction calls as [| c calls IH]; intros qb; [reflexivity |].
  cbn. rewrite apply_call_set_OffsetVal. apply IH.
Qed.

Lemma apply_calls_set_LimitVal (calls : list call) (qb : QueryBuilder) (l : Z) :
  apply_calls (set_LimitVal qb l) calls = set_LimitVal (apply_calls qb calls) l.
Proof.
  revert qb. induction calls as [| c calls IH]; intros qb; [reflexivity |].
  cbn. rewrite apply_call_set_LimitVal. apply IH.
Qed.

Lemma apply_calls_app (qb : QueryBuilder) (calls calls' : list call) :
  apply_calls qb (calls ++ calls') = apply_calls (apply_calls qb calls) calls'.
Proof. apply fold_left_app. Qed.

(** A chain of calls with [Offset o] and [Limit l] somewhere in it, in
    either order, builds what the chain without them builds, with [o] and
    [l] recorded as the deferred values. *)
Lemma offset_limit_chain (qb : QueryBuilder) (pre mid post : list call) (o l : Z) :
  apply_calls (Limit (apply_calls (Offset (apply_calls qb pre) o) mid) l) post
  = set_LimitVal (set_OffsetVal (apply_calls qb (pre ++ mid ++ post)) o) l
  /\ apply_calls (Offset (apply_calls (Limit (apply_calls qb pre) l) mid) o) post
     = set_LimitVal (set_OffsetVal (apply_calls qb (pre ++ mid ++ post)) o) l.
Proof.
  unfold Limit, Offset. rewrite !apply_calls_app.
  rewrite !apply_calls_set_OffsetVal, !apply_calls_set_LimitVal, !apply_calls_set_OffsetVal.
  split; reflexivity.
Qed.

(** C1.  [Offset] and [Limit] leave the pipeline as it is.  Take any chain
    of builder calls in which [Offset o] and [Limit l] occur, in either
    order, with [o > 0] and [l > 0], the other calls being stage-appending
    ones: its pipeline is that of the chain without the two calls, and
    [Execute] hands the store this pipeline followed by exactly [$skip o]
    and then [$limit l]. *)
Theorem offset_limit_finalization (qb : QueryBuilder) (pre mid post : list call) (o l : Z) :
  0 < o -> 0 < l ->
  let built := apply_calls qb (pre ++ mid ++ post) in
  let offset_first :=
    apply_calls (Limit (apply_calls (Offset (apply_calls qb pre) o) mid) l) post in
  let limit_first :=
    apply_calls (Offset (apply_calls (Limit (apply_calls qb pre) l) mid) o) post in
  Collection built <> "" ->
  (Pipeline (Offset qb o) = Pipeline qb /\ Pipeline (Limit qb l) = Pipeline qb)
  /\ (Pipeline offset_first = Pipeline built /\ Pipeline limit_first = Pipeline built)
  /\ (Pipeline (fst (Execute offset_first db))
      = Pipeline built ++ [skip_stage o; limit_stage l]
      /\ snd (Execute offset_first db)
         = store_answer db built (Pipeline built ++ [skip_stage o; limit_stage l]))
  /\ (Pipeline (fst (Execute limit_first db))
      = Pipeline built ++ [skip_stage o; limit_stage l]
      /\ snd (Execute limit_first db)
         = store_answer db built (Pipeline built ++ [skip_stage o; limit_stage l])).
Proof.
  intros Ho Hl built offset_first limit_first Hc.
  destruct (offset_limit_chain qb pre mid post o l) as [E1 E2].
  fold built in E1, E2. fold offset_first in E1. fold limit_first in E2.
  rewrite E1, E2.
  assert (Hdef : deferred_stages (set_LimitVal (set_OffsetVal built o) l)
                 = [skip_stage o; limit_stage l]).
  { unfold deferred_stages. cbn [set_LimitVal set_OffsetVal OffsetVal LimitVal].
    destruct (Z.ltb_spec 0 o); [| lia]. destruct (Z.ltb_spec 0 l); [| lia]. reflexivity. }
  destruct (Execute_compiled (set_LimitVal (set_OffsetVal built o) l) Hc) as [Hp Hr].
  rewrite Hdef in Hp, Hr.
  repeat split; try reflexivity; assumption.
Qed.

(** C10.  For [n > 0], [AggregationLimit n] appends [$limit n] at once and
    also records [n] as the deferred limit, so [Execute] appends [$limit n]
    a second time; [AggregationOffset n] appends [$skip n] at once and
    leaves both deferred values alone, so [Execute] appends only what the
    builder had deferred before: no [$skip] when no offset was deferred. *)
Theorem aggregation_limit_offset_stages (qb : QueryBuilder) (n : Z) :
  0 < n -> Collection qb <> "" ->
  (Pipeline (AggregationLimit qb n) = Pipeline qb ++ [limit_stage n]
   /\ LimitVal (AggregationLimit qb n) = n
   /\ OffsetVal (AggregationLimit qb n) = OffsetVal qb
   /\ Pipeline (fst (Execute (AggregationLimit qb n) db))
      = Pipeline qb ++ [limit_stage n]
        ++ (if 0 <? OffsetVal qb then [skip_stage (OffsetVal qb)] else [])
        ++ [limit_stage n])
  /\ (Pipeline (AggregationOffset qb n) = Pipeline qb ++ [skip_stage n]
      /\ OffsetVal (AggregationOffset qb n) = OffsetVal qb
      /\ LimitVal (AggregationOffset qb n) = LimitVal qb
      /\ Pipeline (fst (Execute (AggregationOffset qb n) db))
         = Pipeline qb ++ [skip_stage n] ++ deferred_stages qb
      /\ (OffsetVal qb <= 0 ->
          Pipeline (fst (Execute (AggregationOffset qb n) db))
          = Pipeline qb ++ [skip_stage n]
            ++ (if 0 <? LimitVal qb then [limit_stage (LimitVal qb)] else []))).
Proof.
  intros Hn Hc.
  assert (EL : AggregationLimit qb n = append_stage (set_LimitVal qb n) (limit_stage n)).
  { unfold AggregationLimit. destruct (Z.ltb_spec 0 n); [reflexivity | lia]. }
  assert (EO : AggregationOffset qb n = append_stage qb (skip_stage n)).
  { unfold AggregationOffset. destruct (Z.ltb_spec 0 n); [reflexivity | lia]. }
  rewrite EL, EO. split.
  - repeat split; try reflexivity.
    destruct (Execute_compiled (append_stage (set_LimitVal qb n) (limit_stage n)) Hc)
      as [Hp _].
    rewrite Hp. unfold deferred_stages. cbn [append_stage set_LimitVal OffsetVal LimitVal Pipeline].
    destruct (Z.ltb_spec 0 n); [| lia]. now rewrite <- app_assoc.
  - destruct (Execute_compiled (append_stage qb (skip_stage n)) Hc) as [Hp _].
    repeat split; try reflexivity.
    + rewrite Hp. unfold deferred_stages. cbn [append_stage OffsetVal LimitVal Pipeline].
      now rewrite <- app_assoc.
    + intros Hoff. rewrite Hp. unfold deferred_stages.
      cbn [append_stage OffsetVal LimitVal Pipeline].
      destruct (Z.ltb_spec 0 (OffsetVal qb)); [lia |]. now rewrite <- app_assoc.
Qed.

End Finalization.

(** The chain [Offset 20; OrderBy; Limit 10; Match] on [orders], and the
    same chain with [Limit] called before [Offset]. *)
Lemma offset_limit_finalization_witness :
  Pipeline (fst (Execute (Match (Limit (OrderBy (Offset orders_builder 20) "a DESC") 10)
                            "status = 'active'") empty_store))
  = Pipeline (Match (OrderBy orders_builder "a DESC") "status = 'active'")
    ++ [skip_stage 20; limit_stage 10]
  /\ Pipeline (fst (Execute (Match (Offset (OrderBy (Limit orders_builder 10) "a DESC") 20)
                               "status = 'active'") empty_store))
     = Pipeline (Match (OrderBy orders_builder "a DESC") "status = 'active'")
       ++ [skip_stage 20; limit_stage 10].
Proof.
  destruct (offset_limit_finalization empty_store orders_builder []
              [CallOrderBy "a DESC"] [CallMatch "status = 'active'"] 20 10)
    as (_ & _ & [Ho _] & [Hl _]); [lia | lia | discriminate |].
  split; [exact Ho | exact Hl].
Defined.

(** [AggregationLimit 5] and [AggregationOffset 5] on a fresh builder on
    [orders]. *)
Lemma aggregation_limit_offset_stages_witness :
  Pipeline (fst (Execute (AggregationLimit orders_builder 5) empty_store))
  = [limit_stage 5; limit_stage 5]
  /\ Pipeline (fst (Execute (AggregationOffset orders_builder 5) empty_store))
     = [skip_stage 5].
Proof.
  destruct (aggregation_limit_offset_stages empty_store orders_builder 5)
    as [(_ & _ & _ & Hl) [_ [_ [_ [_ Ho]]]]]; [lia | discriminate |].
  split; [exact Hl | apply Ho; cbn; lia].
Defined.


(* ================================================================== *)
(** ** The operator mapper *)
(* ================================================================== *)

Section OperatorMapper.

Lemma mapOperatorToMongo_cases (operator : string) :
  (In operator (comparison_tokens ++ arithmetic_tokens)
   /\ mapOperatorToMongo operator <> "")
  \/ (~ In operator (comparison_tokens ++ arithmetic_tokens)
      /\ mapOperatorToMongo operator = "").
Proof.
  unfold mapOperatorToMongo, comparison_tokens, arithmetic_tokens.
  repeat match goal with
         | |- context [String.eqb operator ?t] =>
             destruct (String.eqb_spec operator t) as [-> | ?];
             [left; split; [cbn; tauto | discriminate] |]
         end.
  right. split; [| reflexivity]. cbn. intuition congruence.
Qed.

(** C8, as the code has it: the mapper knows the arithmetic tokens too. *)
Lemma mapOperatorToMongo_plus : mapOperatorToMongo "+" = "$add".
Proof. reflexivity. Qed.

(** C8, amended.  The mapper returns a non-empty tag exactly on the six
    comparison tokens and the four arithmetic tokens [+], [-], [*], [/],
    and the empty string on every other token. *)
Theorem mapOperatorToMongo_mapped (operator : string) :
  (In operator (comparison_tokens ++ arithmetic_tokens)
   <-> mapOperatorToMongo operator <> "")
  /\ (In operator (comparison_tokens ++ arithmetic_tokens)
      \/ mapOperatorToMongo operator = "").
Proof.
  destruct (mapOperatorToMongo_cases operator) as [[Hin Hne] | [Hnin He]].
  - split; [tauto | now left].
  - split; [| now right]. split; [tauto |]. intros Hne. congruence.
Qed.

End OperatorMapper.

(* ================================================================== *)
(** ** Match, Having and OrderBy *)
(* ================================================================== *)

Section Stages.

(** C5.  [Match] and [Having] are the same function of the builder and the
    condition; the builder they return differs from the one they receive by
    exactly one [$match] stage at the end of the pipeline, whose filter is
    the result of [parseExpression] when that succeeds and the result of
    [parseConditions] when, and only when, it fails.  Both are total: no
    error reaches the caller. *)
Theorem match_having_fallback (qb : QueryBuilder) (condition : string) :
  Having qb condition = Match qb condition
  /\ exists filter : bsonM,
       Match qb condition = append_stage qb (match_stage filter)
       /\ Pipeline (Match qb condition) = Pipeline qb ++ [match_stage filter]
       /\ (forall f, parseExpression condition = inl f -> filter = f)
       /\ (forall msg, parseExpression condition = inr msg ->
             filter = parseConditions condition)
       /\ ((exists f, parseExpression condition = inl f)
           \/ (exists msg, parseExpression condition = inr msg)).
Proof.
  split; [reflexivity |].
  unfold Match. destruct (parseExpression condition) as [f | msg] eqn:E.
  - exists f. repeat split; try reflexivity.
    + intros f' [= ->]. reflexivity.
    + intros msg [=].
    + left. now exists f.
  - exists (parseConditions condition). repeat split; try reflexivity.
    + intros f [=].
    + right. now exists msg.
Qed.

Lemma append_empty_r (s : string) : s +:+ "" = s.
Proof.
  induction s as [| c s IH]; [reflexivity |].
  change (String c (s +:+ "") = String c s). now rewrite IH.
Qed.

Lemma snoc_append (cur s : string) (c : ascii) :
  GoStrings.snoc cur c +:+ s = cur +:+ String c s.
Proof.
  induction cur as [| d cur IH]; [reflexivity |].
  change (String d (GoStrings.snoc cur c +:+ s) = String d (cur +:+ String c s)).
  now rewrite IH.
Qed.

(** One step of the splitting loop when the separator is a single space. *)
Lemma split_loop_space (c : ascii) (s cur : string) :
  GoStrings.split_loop " " (String c s) 0 None cur
  = if Ascii.eqb c " " then cur :: GoStrings.split_loop " " s 0 None ""
    else GoStrings.split_loop " " s 0 None (GoStrings.snoc cur c).
Proof.
  cbn. replace (GoStrings.HasPrefix s "") with true by (now destruct s).
  now rewrite andb_true_r.
Qed.

Lemma mem_space_cons (c : ascii) (s : string) :
  GoStrings.mem_char " " (String c s) = Ascii.eqb c " " || GoStrings.mem_char " " s.
Proof.
  change (GoStrings.mem_char " " (String c s))
    with (Ascii.eqb " " c || GoStrings.mem_char " " s).
  now rewrite (Ascii.eqb_sym " " c).
Qed.

Lemma split_loop_nonempty (sep s : string) (skip : nat) (k : option nat) (cur : string) :
  GoStrings.split_loop sep s skip k cur <> [].
Proof.
  revert skip k cur. induction s as [| c s IH]; intros skip k cur; cbn; [discriminate |].
  destruct skip; [| apply IH].
  destruct (match k with Some O => false | _ => _ end); [discriminate | apply IH].
Qed.

Lemma split_loop_space_one (s cur x : string) :
  GoStrings.split_loop " " s 0 None cur = [x]
  <-> x = cur +:+ s /\ GoStrings.mem_char " " s = false.
Proof.
  revert cur. induction s as [| c s IH]; intros cur.
  - rewrite append_empty_r. cbn. split; [intros [= <-]; now split | intros [-> _]; reflexivity].
  - rewrite split_loop_space, mem_space_cons.
    destruct (Ascii.eqb c " ") eqn:Ec; cbn [orb].
    + split; [| intros [_ [=]]].
      intros [= _ H]. now apply split_loop_nonempty in H.
    + rewrite IH, snoc_append. reflexivity.
Qed.

Lemma split_loop_space_two (s cur x y : string) :
  GoStrings.split_loop " " s 0 None cur = [x; y]
  <-> exists f, s = f +:+ String " " y /\ x = cur +:+ f
                /\ GoStrings.mem_char " " f = false /\ GoStrings.mem_char " " y = false.
Proof.
  revert cur. induction s as [| c s IH]; intros cur.
  - cbn. split; [discriminate |]. intros ([| d f] & E & _); discriminate.
  - rewrite split_loop_space. destruct (Ascii.eqb_spec c " ") as [-> | Hc].
    + split.
      * intros [= <- H]. apply split_loop_space_one in H as [-> Hy].
        exists "". cbn. now rewrite append_empty_r.
      * intros ([| d f] & E & -> & Hf & Hy).
        -- cbn in E. injection E as <-. rewrite append_empty_r. f_equal.
           apply split_loop_space_one. now split.
        -- cbn in E. injection E as <- _. cbn in Hf. discriminate.
    + rewrite IH. split.
      * intros (f & -> & -> & Hf & Hy). exists (String c f).
        rewrite snoc_append, mem_space_cons, Hf.
        destruct (Ascii.eqb_spec c " "); [contradiction | now repeat split].
      * intros ([| d f] & E & -> & Hf & Hy).
        -- cbn in E. injection E as -> _. contradiction.
        -- cbn in E. injection E as <- ->. exists f.
           rewrite snoc_append. rewrite mem_space_cons in Hf.
           apply orb_false_iff in Hf as [_ Hf]. now repeat split.
Qed.

(** [Split] on a space returns exactly two parts on the strings that hold
    exactly one space. *)
Lemma Split_space_two (order field dir : string) :
  GoStrings.Split order " " = [field; dir]
  <-> order = field +:+ String " " dir
      /\ GoStrings.mem_char " " field = false /\ GoStrings.mem_char " " dir = false.
Proof.
  unfold GoStrings.Split, GoStrings.SplitN. cbn [Z.eqb Z.ltb Z.compare GoStrings.is_empty].
  rewrite split_loop_space_two. split.
  - intros (f & -> & -> & Hf & Hy). now repeat split.
  - intros (-> & Hf & Hy). exists field. now repeat split.
Qed.

Lemma no_two_parts (order field dir : string) (parts : list string) :
  GoStrings.Split order " " = parts -> length parts <> 2%nat ->
  order = field +:+ String " " dir ->
  GoStrings.mem_char " " field = false -> GoStrings.mem_char " " dir = false -> False.
Proof.
  intros E Hlen Eo Hf Hd.
  assert (E' : GoStrings.Split order " " = [field; dir])
    by (apply Split_space_two; now repeat split).
  apply Hlen. rewrite <- E, E'. reflexivity.
Qed.

(** C6, as the code has it: an order string that does not split into two
    parts gives a [$sort] stage with no field and no direction. *)
Lemma OrderBy_single_token :
  GoStrings.Split "price" " " = ["price"]
  /\ Pipeline (OrderBy NewQueryBuilder "price") = [sort_stage ∅]
  /\ Sort (OrderBy NewQueryBuilder "price") = Some ∅.
Proof. by_computation. Qed.

(** C6, amended.  On an ASCII string [OrderBy] appends one [$sort] stage on
    every call.  When the string is a field and a direction with exactly one
    space between them (it splits on single spaces into exactly two parts),
    the stage sorts that field by -1 if the direction is DESC in any letter
    case and by +1 otherwise; on every other string the stage is the empty
    document, with no field and no direction. *)
Theorem OrderBy_direction (qb : QueryBuilder) (order : string) :
  GoStrings.is_ascii order = true ->
  exists sort : bsonM,
    OrderBy qb order = append_stage (set_Sort qb sort) (sort_stage sort)
    /\ Pipeline (OrderBy qb order) = Pipeline qb ++ [sort_stage sort]
    /\ (forall field dir,
          order = field +:+ String " " dir ->
          GoStrings.mem_char " " field = false -> GoStrings.mem_char " " dir = false ->
          (GoStrings.ToUpper dir = "DESC" -> sort = {[ field := VInt (-1) ]})
          /\ (GoStrings.ToUpper dir <> "DESC" -> sort = {[ field := VInt 1 ]}))
    /\ (length (GoStrings.Split order " ") <> 2%nat -> sort = ∅)
    /\ ((forall field dir,
           GoStrings.mem_char " " field = false -> GoStrings.mem_char " " dir = false ->
           order <> field +:+ String " " dir) -> sort = ∅).
Proof.
  intros _. unfold OrderBy.
  destruct (GoStrings.Split order " ") as [| f [| d [| x parts]]] eqn:E;
    eexists; (split; [reflexivity |]); (split; [reflexivity |]).
  4: { repeat split; intros; try reflexivity; exfalso; eapply no_two_parts; eauto. }
  3: { apply Split_space_two in E as (Eo & Hf & Hd). split; [| split].
       - intros field dir Eo' Hf' Hd'.
         assert (E' : GoStrings.Split order " " = [field; dir])
           by (apply Split_space_two; now repeat split).
         assert (E'' : GoStrings.Split order " " = [f; d])
           by (apply Split_space_two; now repeat split).
         rewrite E'' in E'. injection E' as <- <-. split.
         + intros ->. reflexivity.
         + intros Hne. destruct (String.eqb_spec (GoStrings.ToUpper d) "DESC");
             [contradiction | reflexivity].
       - cbn. intros; lia.
       - intros Hno. exfalso. exact (Hno f d Hf Hd Eo). }
  all: repeat split; intros; try reflexivity; exfalso; eapply no_two_parts; eauto.
Qed.

(** The order [price desc], in lower case. *)
Lemma OrderBy_direction_witness :
  OrderBy orders_builder "price desc"
  = append_stage (set_Sort orders_builder {[ "price" := VInt (-1) ]})
      (sort_stage {[ "price" := VInt (-1) ]}).
Proof.
  destruct (OrderBy_direction orders_builder "price desc")
    as (sort & E & _ & Hdir & _); [reflexivity |].
  destruct (Hdir "price" "desc") as [Hdesc _]; [reflexivity | reflexivity | reflexivity |].
  rewrite <- (Hdesc eq_refl). exact E.
Defined.

End Stages.

(* ================================================================== *)
(** ** The condition parser *)
(* ================================================================== *)

Section ConditionParser.

Lemma starts_word_TrimRight (s : string) :
  GoStrings.starts_word (GoStrings.TrimRightFunc GoStrings.is_space s)
  = GoStrings.starts_word s.
Proof.
  destruct s as [| c s]; [reflexivity |]. cbn.
  destruct (GoStrings.is_space c) eqn:Ec.
  - rewrite andb_true_r.
    destruct (GoStrings.is_empty _); cbn; [reflexivity | now rewrite Ec].
  - rewrite andb_false_r. cbn. now rewrite Ec.
Qed.

Lemma Fields_TrimLeft (s : string) :
  GoStrings.Fields (GoStrings.TrimLeftFunc GoStrings.is_space s) = GoStrings.Fields s.
Proof.
  induction s as [| c s IH]; [reflexivity |]. cbn.
  destruct (GoStrings.is_space c) eqn:Ec; [exact IH |]. cbn. now rewrite Ec.
Qed.

Lemma Fields_TrimRight (s : string) :
  GoStrings.Fields (GoStrings.TrimRightFunc GoStrings.is_space s) = GoStrings.Fields s.
Proof.
  induction s as [| c s IH]; [reflexivity |]. cbn.
  destruct (GoStrings.is_space c) eqn:Ec.
  - rewrite andb_true_r.
    destruct (GoStrings.TrimRightFunc GoStrings.is_space s) eqn:Er; cbn.
    + now rewrite <- IH.
    + now rewrite Ec, <- IH.
  - rewrite andb_false_r. cbn. rewrite Ec, starts_word_TrimRight, IH. reflexivity.
Qed.

(** White space around a condition does not change its tokens. *)
Lemma Fields_TrimSpace (s : string) :
  GoStrings.Fields (GoStrings.TrimSpace s) = GoStrings.Fields s.
Proof.
  unfold GoStrings.TrimSpace, GoStrings.TrimFunc.
  now rewrite Fields_TrimRight, Fields_TrimLeft.
Qed.

Lemma parseCondition_three (condition field operator value : string) :
  GoStrings.Fields condition = [field; operator; value] ->
  parseCondition condition
  = {[ field := VM {[ mapOperatorToMongo operator
                      := convertValue (GoStrings.Trim value "'") ]} ]}.
Proof. intros E. unfold parseCondition. now rewrite E. Qed.

Lemma parseCondition_not_three (condition : string) :
  length (GoStrings.Fields condition) <> 3%nat -> parseCondition condition = ∅.
Proof.
  unfold parseCondition.
  destruct (GoStrings.Fields condition) as [| a [| b [| c [| d l]]]]; cbn; congruence.
Qed.

(** Without a connective, [parseConditions] is the single-condition parse
    of the trimmed string. *)
Lemma parseConditions_single (conditions : string) :
  GoStrings.Contains (GoStrings.ToUpper (GoStrings.TrimSpace conditions)) " AND " = false ->
  GoStrings.Contains (GoStrings.ToUpper (GoStrings.TrimSpace conditions)) " OR " = false ->
  parseConditions conditions = parseCondition (GoStrings.TrimSpace conditions).
Proof. intros Ha Ho. unfold parseConditions. now rewrite Ha, Ho. Qed.

(** The spec's example of a conjunction. *)
Lemma parseConditions_AND_example :
  parseConditions "price > 100 AND stock > 50"
  = {[ "$and" := VA [ VM {[ "price" := VM {[ "$gt" := VInt 100 ]} ]};
                      VM {[ "stock" := VM {[ "$gt" := VInt 50 ]} ]} ] ]}.
Proof. by_computation. Qed.

(** With both connectives in upper case only AND is split on. *)
Lemma parseConditions_AND_before_OR :
  parseConditions "a = 1 OR b = 2 AND c = 3"
  = {[ "$and" := VA [ VM ∅; VM {[ "c" := VM {[ "$eq" := VInt 3 ]} ]} ] ]}.
Proof. by_computation. Qed.

Lemma parseConditions_OR_example :
  parseConditions "a = 1 OR b = 'x'"
  = {[ "$or" := VA [ VM {[ "a" := VM {[ "$eq" := VInt 1 ]} ]};
                     VM {[ "b" := VM {[ "$eq" := VStr "x" ]} ]} ] ]}.
Proof. by_computation. Qed.

(** C2 on the code: a connective in lower case is detected, since the test
    is made on the upper-cased string, but the split is on the upper-case
    literal, so the string is not cut and the one part, with its seven
    tokens, parses to the empty predicate. *)
Theorem parseConditions_lowercase_connective :
  GoStrings.Contains (GoStrings.ToUpper "price > 100 and stock > 50") " AND " = true
  /\ GoStrings.Split "price > 100 and stock > 50" " AND " = ["price > 100 and stock > 50"]
  /\ parseConditions "price > 100 and stock > 50" = {[ "$and" := VA [VM ∅] ]}
  /\ parseConditions "a = 1 or b = 2" = {[ "$or" := VA [VM ∅] ]}
  /\ ub_Filter (Where (NewUpdateBuilder "items") "price > 100 and stock > 50")
     = {[ "$and" := VA [VM ∅] ]}.
Proof. by_computation. Qed.

(** C3 on the code: a three-token condition whose operator the mapper does
    not know gives a comparison under the empty operator tag. *)
Theorem parseCondition_unmapped_operator :
  GoStrings.Fields "price ~ 100" = ["price"; "~"; "100"]
  /\ mapOperatorToMongo "~" = ""
  /\ parseCondition "price ~ 100" = {[ "price" := VM {[ "" := VInt 100 ]} ]}
  /\ parseExpression "price ~ 100" = inr "invalid expression format"
  /\ Pipeline (Match NewQueryBuilder "price ~ 100")
     = [[("$match", VM {[ "price" := VM {[ "" := VInt 100 ]} ]})]].
Proof. by_computation. Qed.

(** The operator of a comparison is empty exactly when the middle token is
    none of the ten tokens the mapper knows. *)
Lemma parseCondition_operator (condition field operator value : string) :
  GoStrings.Fields condition = [field; operator; value] ->
  exists v, parseCondition condition = {[ field := VM {[ mapOperatorToMongo operator := v ]} ]}
            /\ (mapOperatorToMongo operator = ""
                <-> ~ In operator (comparison_tokens ++ arithmetic_tokens)).
Proof.
  intros E. eexists. split; [exact (parseCondition_three _ _ _ _ E) |].
  destruct (mapOperatorToMongo_cases operator) as [[Hin Hne] | [Hnin He]]; tauto.
Qed.

(** C7 on the code: [" as "] in lower case passes the test made on the
    upper-cased spec, [SplitN] on the upper-case literal returns the spec
    uncut, and [parts[1]] is out of range. *)
Theorem parseAlias_lowercase_panics :
  GoStrings.Contains (GoStrings.ToUpper "SUM(amount) as total") " AS " = true
  /\ GoStrings.SplitN "SUM(amount) as total" " AS " 2 = ["SUM(amount) as total"]
  /\ parseAlias "SUM(amount) as total" = Panics "index out of range [1] with length 1"
  /\ NestedGroupBy NewQueryBuilder "region" ["SUM(amount) as total"]
     = Panics "index out of range [1] with length 1".
Proof. by_computation. Qed.

Lemma parseAlias_upper_example : parseAlias "SUM(amount) AS  total " = Returns "total".
Proof. by_computation. Qed.

Lemma parseAlias_default (field : string) :
  GoStrings.Contains (GoStrings.ToUpper field) " AS " = false ->
  parseAlias field = Returns field.
Proof. intros H. unfold parseAlias. now rewrite H. Qed.

(** C4, as the code has it: a condition of one token that holds an
    operator is an expression for [Match], whose stage is not empty. *)
Lemma Match_single_token_expression :
  GoStrings.Fields "price>100" = ["price>100"]
  /\ parseCondition "price>100" = ∅
  /\ Pipeline (Match NewQueryBuilder "price>100")
     = [[("$match",
          VM {[ "$expr" :=
                  VM {[ "$gt" := VA [VStr "$price";
                                     VFloat (GoStrconv.F64_near false false 100 0)] ]} ]})]].
Proof. by_computation. Qed.

(** C4, amended.  An ASCII condition that does not split into exactly three
    tokens parses, as a single condition, to the empty predicate; if it
    holds no AND or OR connective, [Where] stores the empty filter, and if
    moreover the expression parse fails on it, [Match] and [Having] append
    an empty [$match] stage.  None of them fails. *)
Theorem malformed_condition_is_empty (qb : QueryBuilder) (ub : UpdateBuilder)
    (condition : string) :
  GoStrings.is_ascii condition = true ->
  length (GoStrings.Fields condition) <> 3%nat ->
  parseCondition condition = ∅
  /\ (GoStrings.Contains (GoStrings.ToUpper (GoStrings.TrimSpace condition)) " AND " = false ->
      GoStrings.Contains (GoStrings.ToUpper (GoStrings.TrimSpace condition)) " OR " = false ->
      ub_Filter (Where ub condition) = ∅
      /\ (forall msg, parseExpression condition = inr msg ->
            Match qb condition = append_stage qb (match_stage ∅)
            /\ Having qb condition = append_stage qb (match_stage ∅))).
Proof.
  intros _ Hlen. split; [now apply parseCondition_not_three |].
  intros Ha Ho.
  assert (E : parseConditions condition = ∅).
  { rewrite parseConditions_single by assumption.
    apply parseCondition_not_three. now rewrite Fields_TrimSpace. }
  split; [exact E |].
  intros msg Hm. unfold Match, Having. rewrite Hm, E. split; reflexivity.
Qed.

(** The single token [price]. *)
Lemma malformed_condition_is_empty_witness :
  parseCondition "price" = ∅
  /\ ub_Filter (Where (NewUpdateBuilder "items") "price") = ∅
  /\ Match NewQueryBuilder "price" = append_stage NewQueryBuilder (match_stage ∅)
  /\ Having NewQueryBuilder "price" = append_stage NewQueryBuilder (match_stage ∅).
Proof.
  destruct (malformed_condition_is_empty NewQueryBuilder (NewUpdateBuilder "items") "price")
    as [Hp Hc]; [reflexivity | vm_compute; lia |].
  destruct Hc as [Hw Hm]; [vm_compute; reflexivity | vm_compute; reflexivity |].
  destruct (Hm "invalid expression format") as [H1 H2]; [vm_compute; reflexivity |].
  repeat split; assumption.
Defined.

End ConditionParser.

(* ================================================================== *)
(** ** The LIMIT clause *)
(* ================================================================== *)

Section LimitClause.

Lemma digit_val_range (c : ascii) : is_digit c = true -> 0 <= digit_val c <= 9.
Proof.
  unfold is_digit, digit_val. intros H.
  apply andb_true_iff in H as [H1 H2].
  apply N.leb_le in H1, H2. lia.
Qed.

Lemma decimal_value_from_ge (s : string) (acc : Z) :
  all_digits s = true -> 0 <= acc -> acc <= decimal_value_from s acc.
Proof.
  revert acc. induction s as [| c s IH]; intros acc Hd Hacc; cbn in *; [lia |].
  apply andb_true_iff in Hd as [Hc Hs].
  pose proof (digit_val_range c Hc).
  specialize (IH (acc * 10 + digit_val c) Hs). lia.
Qed.

Lemma parse_uint_loop_digits (s : string) (n : Z) :
  all_digits s = true -> 0 <= n -> decimal_value_from s n <= maxUint64 ->
  parse_uint_loop s n = inl (decimal_value_from s n).
Proof.
  revert n. induction s as [| c s IH]; intros n Hd Hn Hmax; cbn in *; [reflexivity |].
  apply andb_true_iff in Hd as [Hc Hs]. rewrite Hc.
  pose proof (digit_val_range c Hc) as Hr.
  pose proof (decimal_value_from_ge s (n * 10 + digit_val c) Hs ltac:(lia)) as Hge.
  assert (Hm : maxUint64 = 18446744073709551615) by reflexivity.
  destruct (Z.leb_spec (maxUint64 / 10 + 1) n) as [Hcut | _].
  { rewrite Hm in Hcut. change (18446744073709551615 / 10 + 1) with 1844674407370955162 in Hcut.
    lia. }
  destruct (Z.ltb_spec maxUint64 (n * 10 + digit_val c)); [lia |].
  apply IH; [assumption | lia | assumption].
Qed.

Lemma parse_uint_loop_inl (s : string) (n v : Z) :
  parse_uint_loop s n = inl v ->
  all_digits s = true /\ v = decimal_value_from s n.
Proof.
  revert n. induction s as [| c s IH]; intros n H; cbn in *.
  - injection H as <-. split; reflexivity.
  - destruct (is_digit c); [| discriminate].
    destruct (maxUint64 / 10 + 1 <=? n); [discriminate |].
    destruct (maxUint64 <? n * 10 + digit_val c); [discriminate |].
    apply IH in H. exact H.
Qed.

Lemma parse_uint_loop_le (s : string) (n v : Z) :
  parse_uint_loop s n = inl v -> n <= maxUint64 -> v <= maxUint64.
Proof.
  revert n. induction s as [| c s IH]; intros n H Hn; cbn in *.
  - injection H as <-. exact Hn.
  - destruct (is_digit c); [| discriminate].
    destruct (maxUint64 / 10 + 1 <=? n); [discriminate |].
    destruct (Z.ltb_spec maxUint64 (n * 10 + digit_val c)); [discriminate |].
    eapply IH; eassumption.
Qed.

Lemma digit_not_sign (c : ascii) :
  is_digit c = true -> Ascii.eqb c "+" = false /\ Ascii.eqb c "-" = false.
Proof.
  intros H. split.
  - destruct (Ascii.eqb_spec c "+") as [-> | ?]; [discriminate H | reflexivity].
  - destruct (Ascii.eqb_spec c "-") as [-> | ?]; [discriminate H | reflexivity].
Qed.

Lemma ParseUint_digits (ds : string) :
  ds <> "" -> all_digits ds = true -> decimal_value ds <= maxUint64 ->
  ParseUint ds = inl (decimal_value ds).
Proof.
  intros Hne Hd Hmax. unfold ParseUint.
  destruct ds; [contradiction |]. cbn [GoStrings.is_empty].
  apply parse_uint_loop_digits; [assumption | lia | assumption].
Qed.

Lemma ParseUint_inl (ds : string) (v : Z) :
  ParseUint ds = inl v -> ds <> "" /\ all_digits ds = true /\ v = decimal_value ds.
Proof.
  unfold ParseUint. destruct ds; cbn [GoStrings.is_empty]; [discriminate |].
  intros H. apply parse_uint_loop_inl in H as [Hd Hv]. repeat split; [discriminate | |]; assumption.
Qed.

(** [ParseInt] accepts exactly the signed decimal literals of [int64]. *)
Lemma ParseInt_literal (s : string) (n : Z) :
  ParseInt s = inl n <-> int64_literal s n.
Proof.
  assert (Hmax : maxUint64 = 18446744073709551615) by reflexivity.
  assert (H63 : 2 ^ 63 = 9223372036854775808) by reflexivity.
  split.
  - destruct s as [| c s']; [discriminate |]. unfold ParseInt.
    destruct (Ascii.eqb_spec c "+") as [-> | Hp]; cbn [orb].
    + change (Ascii.eqb "+" "-") with false. cbn [negb andb].
      destruct (ParseUint s') as [un | []] eqn:E; try discriminate.
      apply ParseUint_inl in E as (Hne & Hd & ->).
      destruct (Z.leb_spec (2 ^ 63) (decimal_value s')); [discriminate |].
      intros [= <-]. now constructor.
    + destruct (Ascii.eqb_spec c "-") as [-> | Hm]; cbn [negb andb].
      * destruct (ParseUint s') as [un | []] eqn:E; try discriminate.
        apply ParseUint_inl in E as (Hne & Hd & ->).
        destruct (Z.ltb_spec (2 ^ 63) (decimal_value s')); [discriminate |].
        intros [= <-]. now constructor.
      * destruct (ParseUint (String c s')) as [un | []] eqn:E; try discriminate.
        apply ParseUint_inl in E as (Hne & Hd & ->).
        destruct (Z.leb_spec (2 ^ 63) (decimal_value (String c s'))); [discriminate |].
        intros [= <-]. now constructor.
  - intros [ds Hne Hd Hv | ds Hne Hd Hv | ds Hne Hd Hv].
    + destruct ds as [| c s']; [contradiction |]. unfold ParseInt.
      assert (Hc : is_digit c = true) by (cbn in Hd; now apply andb_true_iff in Hd as [? _]).
      destruct (digit_not_sign c Hc) as [-> ->]. cbn [orb negb andb].
      rewrite ParseUint_digits by (try assumption; lia).
      destruct (Z.leb_spec (2 ^ 63) (decimal_value (String c s'))); [lia | reflexivity].
    + unfold ParseInt. change (Ascii.eqb "+" "+") with true.
      change (Ascii.eqb "+" "-") with false. cbn [orb negb andb].
      rewrite ParseUint_digits by (try assumption; lia).
      destruct (Z.leb_spec (2 ^ 63) (decimal_value ds)); [lia | reflexivity].
    + unfold ParseInt. change (Ascii.eqb "-" "+") with false.
      change (Ascii.eqb "-" "-") with true. cbn [orb negb andb].
      rewrite ParseUint_digits by (try assumption; lia).
      destruct (Z.ltb_spec (2 ^ 63) (decimal_value ds)); [lia | reflexivity].
Qed.

Lemma parseLimit_literal (limit : string) (n : Z) :
  parseLimit limit = inl n <-> int64_literal limit n.
Proof.
  rewrite <- ParseInt_literal. unfold parseLimit.
  destruct (ParseInt limit); split; congruence.
Qed.

Lemma parseLimit_invalid (limit : string) :
  (forall n, ~ int64_literal limit n) -> parseLimit limit = inr "invalid LIMIT value".
Proof.
  intros H. unfold parseLimit. destruct (ParseInt limit) as [n | e] eqn:E; [| reflexivity].
  apply ParseInt_literal in E. now apply H in E.
Qed.

(** C9, as the code has it: a negative LIMIT value is read and stored; and
    the letters LIMIT are looked for anywhere, so that with a field named
    [credit_limit] the value read is [> 100] and the parse fails, where the
    statement has the LIMIT value 10. *)
Lemma ParseSQL_negative_limit :
  parseLimit "-5" = inl (-5)
  /\ ParseSQL (NewSQLParser "SELECT a FROM t LIMIT -5")
     = Returns (inl (mkQueryBuilder "t" ["a"] None None None (-5) 0 []))
  /\ parse_clauses (NewSQLParser "SELECT name FROM accounts WHERE credit_limit > 100 LIMIT 10")
     = Returns (Match (mkQueryBuilder "accounts" ["name"] None None None 0 0 []) "credit_",
                "limit > 100 LIMIT 10")
  /\ extractClause "LIMIT" "limit > 100 LIMIT 10" = ("> 100", "LIMIT 10")
  /\ ParseSQL (NewSQLParser "SELECT name FROM accounts WHERE credit_limit > 100 LIMIT 10")
     = Returns (inr "invalid LIMIT value").
Proof. by_computation. Qed.

End LimitClause.

(* ================================================================== *)
(** ** Execute, the pipeline and the projection *)
(* ================================================================== *)

Section Pipelines.

Variable db : Database.

Lemma Execute_frame (qb : QueryBuilder) :
  Collection (fst (Execute qb db)) = Collection qb
  /\ OffsetVal (fst (Execute qb db)) = OffsetVal qb
  /\ LimitVal (fst (Execute qb db)) = LimitVal qb
  /\ Fields (fst (Execute qb db)) = Fields qb.
Proof.
  unfold Execute. destruct (String.eqb (Collection qb) ""); [now repeat split |].
  destruct qb as [c fs g s h lim off p]; cbn.
  destruct (0 <? off); cbn; destruct (0 <? lim); cbn;
    match goal with |- context [Aggregate db ?c ?p] => destruct (Aggregate db c p) end;
    now repeat split.
Qed.

(** X1.  [Execute] writes the deferred stages into the builder's own pipeline:
    run twice on a builder with a collection, it leaves the pipeline with
    the deferred [$skip] and [$limit] stages twice. *)
Theorem Execute_twice_repeats_deferred_stages (qb : QueryBuilder) :
  Collection qb <> "" ->
  Pipeline (fst (Execute (fst (Execute qb db)) db))
  = Pipeline qb ++ deferred_stages qb ++ deferred_stages qb
  /\ snd (Execute (fst (Execute qb db)) db)
     = store_answer db qb (Pipeline qb ++ deferred_stages qb ++ deferred_stages qb).
Proof.
  intros Hc.
  destruct (Execute_frame qb) as (Ec & Eo & El & _).
  destruct (Execute_compiled db qb Hc) as [Hp _].
  assert (Hc' : Collection (fst (Execute qb db)) <> "") by now rewrite Ec.
  destruct (Execute_compiled db (fst (Execute qb db)) Hc') as [Hp' Hr'].
  assert (Hd : deferred_stages (fst (Execute qb db)) = deferred_stages qb).
  { unfold deferred_stages. now rewrite Eo, El. }
  rewrite Hd, Hp in Hp', Hr'. rewrite <- app_assoc in Hp', Hr'.
  split; [exact Hp' |]. rewrite Hr'. unfold store_answer. now rewrite Ec.
Qed.

Lemma decode_all_inl (cursor : list (bsonM + string)) (acc results : list bsonM) :
  decode_all cursor acc = inl results
  <-> exists docs, cursor = map inl docs /\ results = acc ++ docs.
Proof.
  revert acc. induction cursor as [| [doc | err] cursor IH]; intros acc; cbn.
  - split.
    + intros [= <-]. exists []. now rewrite app_nil_r.
    + intros ([| d docs] & E & ->); [now rewrite app_nil_r | discriminate].
  - rewrite IH. split.
    + intros (docs & -> & ->). exists (doc :: docs). now rewrite <- app_assoc.
    + intros ([| d docs] & E & ->); [discriminate |].
      injection E as <- ->. exists docs. now rewrite <- app_assoc.
  - split; [discriminate |]. intros ([| d docs] & E & _); discriminate.
Qed.

Lemma decode_all_inr (cursor : list (bsonM + string)) (acc : list bsonM) (err : string) :
  decode_all cursor acc = inr err
  <-> exists docs rest, cursor = map inl docs ++ inr err :: rest.
Proof.
  revert acc. induction cursor as [| [doc | e] cursor IH]; intros acc; cbn.
  - split; [discriminate |]. intros ([| d docs] & rest & E); discriminate.
  - rewrite IH. split.
    + intros (docs & rest & ->). now exists (doc :: docs), rest.
    + intros ([| d docs] & rest & E); [discriminate |].
      injection E as _ ->. now exists docs, rest.
  - split.
    + intros [= ->]. now exists [], cursor.
    + intros ([| d docs] & rest & E); [| discriminate]. now injection E as ->.
Qed.

(** X2.  What [Execute] returns when the store answers with a cursor: all the
    documents, in the cursor's order, exactly when every one of them
    decodes; otherwise the error of the first one that does not, and
    nothing of what was decoded before it. *)
Theorem Execute_decodes_cursor (qb : QueryBuilder) (cursor : list (bsonM + string)) :
  Collection qb <> "" ->
  Aggregate db (Collection qb) (Pipeline qb ++ deferred_stages qb) = inl cursor ->
  (forall docs, snd (Execute qb db) = inl docs <-> cursor = map inl docs)
  /\ (forall err, snd (Execute qb db) = inr err
                  <-> exists docs rest, cursor = map inl docs ++ inr err :: rest).
Proof.
  intros Hc Ha. destruct (Execute_compiled db qb Hc) as [_ Hr].
  rewrite Hr. unfold store_answer. rewrite Ha. split.
  - intros docs. rewrite decode_all_inl. split.
    + intros (docs' & -> & ->). reflexivity.
    + intros ->. now exists docs.
  - intros err. apply decode_all_inr.
Qed.

End Pipelines.

(** [Offset 20] and [Limit 10] on [orders], executed twice. *)
Lemma Execute_twice_repeats_deferred_stages_witness :
  Pipeline (fst (Execute (fst (Execute (Limit (Offset orders_builder 20) 10) empty_store))
                   empty_store))
  = [skip_stage 20; limit_stage 10; skip_stage 20; limit_stage 10].
Proof.
  destruct (Execute_twice_repeats_deferred_stages empty_store
              (Limit (Offset orders_builder 20) 10)) as [Hp _]; [discriminate |].
  exact Hp.
Defined.

(** A store whose cursor holds three documents, the second of which does
    not decode. *)
Lemma Execute_decodes_cursor_witness :
  snd (Execute orders_builder
         (mkDatabase (fun _ _ => inl [inl ∅; inr "cannot decode"; inl ∅])))
  = inr "cannot decode".
Proof.
  destruct (Execute_decodes_cursor
              (mkDatabase (fun _ _ => inl [inl ∅; inr "cannot decode"; inl ∅]))
              orders_builder [inl ∅; inr "cannot decode"; inl ∅]) as [_ He];
    [discriminate | reflexivity |].
  apply He. now exists [∅], [inl ∅].
Defined.

Section AppendOnly.

Lemma NestedGroupBy_appends (qb qb' : QueryBuilder) (field : string)
    (aggregations : list string) :
  NestedGroupBy qb field aggregations = Returns qb' ->
  exists nestedGroup, qb' = append_stage qb [("$group", VM nestedGroup)].
Proof.
  unfold NestedGroupBy.
  destruct (nested_group_loop aggregations _) as [g | msg]; cbn; [| discriminate].
  intros [= <-]. now exists g.
Qed.

Lemma apply_builder_call_appends (qb qb' : QueryBuilder) (c : builder_call) :
  apply_builder_call qb c = Returns qb' ->
  exists stages, Pipeline qb' = Pipeline qb ++ stages /\ (length stages <= 1)%nat.
Proof.
  destruct c; cbn.
  8: { intros H. apply NestedGroupBy_appends in H as [g ->].
       eexists. split; [reflexivity | cbn; lia]. }
  all: intros [= <-].
  all: try (exists []; split; [now rewrite app_nil_r | cbn; lia]).
  all: try (eexists; split; [reflexivity | cbn; lia]).
  - unfold AggregationLimit. destruct (0 <? n).
    + eexists. split; [reflexivity | cbn; lia].
    + exists []. split; [now rewrite app_nil_r | cbn; lia].
  - unfold AggregationOffset. destruct (0 <? n).
    + eexists. split; [reflexivity | cbn; lia].
    + exists []. split; [now rewrite app_nil_r | cbn; lia].
Qed.

(** X3.  The pipeline is append-only while the query is built: whatever chain of
    builder methods is called, the pipeline it started from is still the
    beginning of the pipeline it ends with, and each call has added at most
    one stage. *)
Theorem pipeline_append_only (calls : list builder_call) (qb qb' : QueryBuilder) :
  apply_builder_calls qb calls = Returns qb' ->
  exists stages, Pipeline qb' = Pipeline qb ++ stages
                 /\ (length stages <= length calls)%nat.
Proof.
  revert qb. induction calls as [| c calls IH]; intros qb; cbn.
  - intros [= <-]. exists []. split; [now rewrite app_nil_r | cbn; lia].
  - destruct (apply_builder_call qb c) as [qb1 | msg] eqn:E; cbn; [| discriminate].
    intros H. apply IH in H as (st2 & -> & Hl2).
    apply apply_builder_call_appends in E as (st1 & -> & Hl1).
    exists (st1 ++ st2). rewrite <- app_assoc, length_app. split; [reflexivity | lia].
Qed.

Lemma buildProjection_fold (fields : list string) (projection : bsonM) (f : string) :
  fold_left (fun projection field => <[field := VInt 1]> projection) fields projection !! f
  = if decide (f ∈ fields) then Some (VInt 1) else projection !! f.
Proof.
  revert projection. induction fields as [| g fields IH]; intros projection; cbn.
  - case_decide as H; [now apply elem_of_nil in H | reflexivity].
  - rewrite IH. destruct (decide (f ∈ fields)) as [Hin | Hnin].
    + rewrite decide_True by (now right). reflexivity.
    + destruct (decide (f = g)) as [-> | Hne].
      * rewrite decide_True by (now left). apply lookup_insert_eq.
      * rewrite decide_False by (intros [? | ?]%elem_of_cons; contradiction).
        now rewrite lookup_insert_ne.
Qed.

(** X4.  [Select] is cumulative: it appends one [$project] stage, which includes
    (with the value 1) exactly the fields of this call and of every [Select]
    before it, a field named several times once. *)
Theorem Select_projects_all_selected_fields (qb : QueryBuilder) (fields : list string) :
  exists projection : bsonM,
    Pipeline (Select qb fields) = Pipeline qb ++ [[("$project", VM projection)]]
    /\ Fields (Select qb fields) = Fields qb ++ fields
    /\ (forall f, projection !! f = Some (VInt 1) <-> f ∈ Fields qb \/ f ∈ fields)
    /\ (forall f, projection !! f = None <-> ~ (f ∈ Fields qb \/ f ∈ fields)).
Proof.
  eexists. split; [reflexivity |]. split; [reflexivity |].
  unfold buildProjection. cbn [Fields set_Fields].
  split; intros f; rewrite buildProjection_fold, <- elem_of_app;
    destruct (decide (f ∈ Fields qb ++ fields)); rewrite ?lookup_empty; split;
    try tauto; try discriminate; intros; try contradiction; reflexivity.
Qed.

End AppendOnly.

(** The chain [Select; Limit; Match; AggregationLimit 0; OrderBy]. *)
Lemma pipeline_append_only_witness :
  exists stages,
    Pipeline (OrderBy (AggregationLimit (Match (Limit (Select orders_builder ["a"]) 5) "a > 1") 0)
                "a DESC")
    = Pipeline orders_builder ++ stages /\ (length stages <= 5)%nat.
Proof.
  apply (pipeline_append_only
           [BSelect ["a"]; BLimit 5; BMatch "a > 1"; BAggregationLimit 0; BOrderBy "a DESC"]
           orders_builder).
  reflexivity.
Defined.

(* ================================================================== *)
(** ** Strings: trimming, tokens and runs *)
(* ================================================================== *)

Section StringFacts.

Lemma append_cons (c : ascii) (s t : string) : String c s +:+ t = String c (s +:+ t).
Proof. reflexivity. Qed.

Lemma append_nil_l (t : string) : "" +:+ t = t.
Proof. reflexivity. Qed.

Lemma append_assoc (s t u : string) : (s +:+ t) +:+ u = s +:+ (t +:+ u).
Proof.
  induction s as [| c s IH]; [reflexivity |]. rewrite !append_cons. now rewrite IH.
Qed.

Lemma length_append (s t : string) :
  String.length (s +:+ t) = (String.length s + String.length t)%nat.
Proof.
  induction s as [| c s IH]; [reflexivity |]. rewrite append_cons. cbn. now rewrite IH.
Qed.

Lemma drop_append (s t : string) : GoStrings.drop (String.length s) (s +:+ t) = t.
Proof. induction s as [| c s IH]; [now destruct t | rewrite append_cons; exact IH]. Qed.

Lemma take_append (s t : string) : GoStrings.take (String.length s) (s +:+ t) = s.
Proof.
  induction s as [| c s IH]; [now destruct t |]. rewrite append_cons. cbn. now rewrite IH.
Qed.

Lemma any_char_append (f : ascii -> bool) (s t : string) :
  any_char f (s +:+ t) = any_char f s || any_char f t.
Proof.
  induction s as [| c s IH]; [reflexivity |]. rewrite append_cons. cbn.
  now rewrite IH, orb_assoc.
Qed.

Lemma all_chars_any_char (f g : ascii -> bool) (s : string) :
  (forall c, f c = true -> g c = false) -> all_chars f s = true -> any_char g s = false.
Proof.
  intros Hfg. induction s as [| c s IH]; [reflexivity |]. cbn.
  intros [Hc Hs]%andb_true_iff. now rewrite (Hfg c Hc), IH.
Qed.

Lemma TrimLeft_starts_clean (f : ascii -> bool) (s : string) :
  starts_clean f (GoStrings.TrimLeftFunc f s) = true.
Proof.
  induction s as [| c s IH]; [reflexivity |]. cbn.
  destruct (f c) eqn:E; [exact IH |]. unfold starts_clean. cbn. now rewrite E.
Qed.

Lemma TrimLeft_clean (f : ascii -> bool) (s : string) :
  starts_clean f s = true -> GoStrings.TrimLeftFunc f s = s.
Proof.
  destruct s as [| c s]; [reflexivity |]. unfold starts_clean. cbn.
  now destruct (f c).
Qed.

Lemma TrimRight_starts_clean (f : ascii -> bool) (s : string) :
  starts_clean f s = true -> starts_clean f (GoStrings.TrimRightFunc f s) = true.
Proof.
  destruct s as [| c s]; [reflexivity |]. unfold starts_clean. cbn.
  destruct (f c) eqn:E; [discriminate |]. rewrite andb_false_r. cbn. now rewrite E.
Qed.

Lemma TrimRight_idempotent (f : ascii -> bool) (s : string) :
  GoStrings.TrimRightFunc f (GoStrings.TrimRightFunc f s) = GoStrings.TrimRightFunc f s.
Proof.
  induction s as [| c s IH]; [reflexivity |]. cbn.
  destruct (GoStrings.is_empty (GoStrings.TrimRightFunc f s) && f c) eqn:E; [reflexivity |].
  cbn. now rewrite IH, E.
Qed.

Lemma TrimFunc_idempotent (f : ascii -> bool) (s : string) :
  GoStrings.TrimFunc f (GoStrings.TrimFunc f s) = GoStrings.TrimFunc f s.
Proof.
  unfold GoStrings.TrimFunc.
  rewrite (TrimLeft_clean f (GoStrings.TrimRightFunc f (GoStrings.TrimLeftFunc f s))).
  - apply TrimRight_idempotent.
  - apply TrimRight_starts_clean, TrimLeft_starts_clean.
Qed.

Lemma TrimSpace_idempotent (s : string) :
  GoStrings.TrimSpace (GoStrings.TrimSpace s) = GoStrings.TrimSpace s.
Proof. apply TrimFunc_idempotent. Qed.

Lemma TrimLeft_any_char (f g : ascii -> bool) (s : string) :
  any_char g s = false -> any_char g (GoStrings.TrimLeftFunc f s) = false.
Proof.
  induction s as [| c s IH]; [reflexivity |]. cbn.
  intros [Hc Hs]%orb_false_iff. destruct (f c); [now apply IH |]. cbn. now rewrite Hc, Hs.
Qed.

Lemma TrimRight_any_char (f g : ascii -> bool) (s : string) :
  any_char g s = false -> any_char g (GoStrings.TrimRightFunc f s) = false.
Proof.
  induction s as [| c s IH]; [reflexivity |]. cbn.
  intros [Hc Hs]%orb_false_iff.
  destruct (GoStrings.is_empty _ && f c); [reflexivity |]. cbn. now rewrite Hc, IH.
Qed.

Lemma TrimSpace_any_char (g : ascii -> bool) (s : string) :
  any_char g s = false -> any_char g (GoStrings.TrimSpace s) = false.
Proof. intros H. now apply TrimRight_any_char, TrimLeft_any_char. Qed.

(** A string that ends in a character the trimming keeps is left alone on
    the right. *)
Lemma TrimRight_clean_end (f : ascii -> bool) (s t : string) :
  t <> "" -> any_char f t = false -> GoStrings.TrimRightFunc f (s +:+ t) = s +:+ t.
Proof.
  intros Ht Hf.
  assert (Hbase : GoStrings.TrimRightFunc f t = t).
  { clear Ht. induction t as [| c t IH]; [reflexivity |]. cbn in *.
    apply orb_false_iff in Hf as [Hc Hf]. now rewrite Hc, andb_false_r, IH. }
  induction s as [| c s IH]; [exact Hbase |]. rewrite append_cons. cbn. rewrite IH.
  destruct (s +:+ t) eqn:E; [| reflexivity].
  destruct s; [rewrite append_nil_l in E; congruence | discriminate].
Qed.

(** The tokens [Fields] returns are not empty and hold no white space. *)
Lemma Fields_tokens (s : string) :
  Forall (fun w => w <> "" /\ any_char GoStrings.is_space w = false) (GoStrings.Fields s).
Proof.
  induction s as [| c s IH]; [constructor |]. cbn.
  destruct (GoStrings.is_space c) eqn:Ec; [exact IH |].
  destruct (GoStrings.starts_word s).
  - destruct (GoStrings.Fields s) as [| w ws].
    + repeat constructor; [discriminate | cbn; now rewrite Ec].
    + inversion IH as [| ? ? [Hw1 Hw2] Hws]; subst. constructor; [| assumption].
      split; [discriminate | cbn; now rewrite Ec, Hw2].
  - constructor; [| assumption]. split; [discriminate | cbn; now rewrite Ec].
Qed.

Lemma starts_word_append (w rest : string) :
  w <> "" -> any_char GoStrings.is_space w = false ->
  GoStrings.starts_word (w +:+ rest) = true.
Proof.
  destruct w as [| c w]; [contradiction |]. intros _. cbn.
  intros [Hc _]%orb_false_iff. rewrite append_cons. cbn. now rewrite Hc.
Qed.

(** A token followed by white space, or by nothing, is the first field. *)
Lemma Fields_token (w rest : string) :
  w <> "" -> any_char GoStrings.is_space w = false -> GoStrings.starts_word rest = false ->
  GoStrings.Fields (w +:+ rest) = w :: GoStrings.Fields rest.
Proof.
  intros Hw Hs Hr. induction w as [| c w IH]; [contradiction |].
  cbn in Hs. apply orb_false_iff in Hs as [Hc Hs]. rewrite append_cons. cbn. rewrite Hc.
  destruct w as [| d w].
  - rewrite append_nil_l, Hr. reflexivity.
  - rewrite starts_word_append by (try discriminate; assumption).
    rewrite IH by (try discriminate; assumption). reflexivity.
Qed.

Lemma Fields_three (a b c : string) :
  a <> "" -> b <> "" -> c <> "" ->
  any_char GoStrings.is_space a = false -> any_char GoStrings.is_space b = false ->
  any_char GoStrings.is_space c = false ->
  GoStrings.Fields (a +:+ " " +:+ b +:+ " " +:+ c) = [a; b; c].
Proof.
  intros Ha Hb Hc Sa Sb Sc.
  rewrite (Fields_token a) by (try assumption; reflexivity).
  rewrite append_cons, append_nil_l.
  change (GoStrings.Fields (String " " (b +:+ " " +:+ c)))
    with (GoStrings.Fields (b +:+ " " +:+ c)).
  rewrite (Fields_token b) by (try assumption; reflexivity).
  rewrite append_cons, append_nil_l.
  change (GoStrings.Fields (String " " c)) with (GoStrings.Fields c).
  rewrite <- (append_empty_r c) at 1.
  rewrite (Fields_token c) by (try assumption; reflexivity). reflexivity.
Qed.

End StringFacts.

(* ================================================================== *)
(** ** Conditions and expressions *)
(* ================================================================== *)

Section Expressions.

(** X5.  White space around a condition changes nothing: [Match], [Having] and
    [Where] give the same result on a condition and on the condition
    trimmed. *)
Theorem condition_whitespace_is_ignored (qb : QueryBuilder) (ub : UpdateBuilder)
    (condition : string) :
  parseExpression (GoStrings.TrimSpace condition) = parseExpression condition
  /\ parseConditions (GoStrings.TrimSpace condition) = parseConditions condition
  /\ Match qb (GoStrings.TrimSpace condition) = Match qb condition
  /\ Having qb (GoStrings.TrimSpace condition) = Having qb condition
  /\ Where ub (GoStrings.TrimSpace condition) = Where ub condition.
Proof.
  assert (He : parseExpression (GoStrings.TrimSpace condition) = parseExpression condition).
  { unfold parseExpression. now rewrite TrimSpace_idempotent. }
  assert (Hc : parseConditions (GoStrings.TrimSpace condition) = parseConditions condition).
  { unfold parseConditions. now rewrite TrimSpace_idempotent. }
  repeat split; try assumption; unfold Match, Having, Where; now rewrite ?He, ?Hc.
Qed.

(** X6.  [convertValue] returns an [int] exactly on the signed decimal literals
    of 64 bits, with the number written; when it returns a string, the string
    is the token itself. *)
Theorem convertValue_integers_and_strings (value : string) :
  (forall n, convertValue value = VInt n <-> int64_literal value n)
  /\ (forall s, convertValue value = VStr s -> s = value)
  /\ (forall n, convertValue value = VInt64 n -> False)
  /\ (forall m, convertValue value = VM m -> False)
  /\ (forall l, convertValue value = VA l -> False).
Proof.
  unfold convertValue, Atoi.
  destruct (ParseInt value) as [num | e] eqn:E.
  - split; [intros n; split |].
    + intros [= <-]. now apply ParseInt_literal.
    + intros H. apply ParseInt_literal in H. congruence.
    + repeat apply conj; intros ? HH; discriminate HH.
  - assert (Hn : forall n, ~ int64_literal value n).
    { intros n H. apply ParseInt_literal in H. congruence. }
    destruct (ParseFloat value);
      (split; [intros k; split; [discriminate | intros HH; now apply Hn in HH] |]);
      (split; [intros s HH; try discriminate; now injection HH |]);
      repeat apply conj; intros ? HH; discriminate HH.
Qed.

Lemma TrimRight_strip (f : ascii -> bool) (s t : string) :
  any_char f s = false -> all_chars f t = true ->
  GoStrings.TrimRightFunc f (s +:+ t) = s.
Proof.
  intros Hs Ht.
  assert (Hbase : GoStrings.TrimRightFunc f t = "").
  { induction t as [| c t IH]; [reflexivity |]. cbn in *.
    apply andb_true_iff in Ht as [Hc Ht]. now rewrite (IH Ht), Hc. }
  induction s as [| c s IH]; [exact Hbase |]. rewrite append_cons. cbn in *.
  apply orb_false_iff in Hs as [Hc Hs]. now rewrite (IH Hs), Hc, andb_false_r.
Qed.

(** Single quotes around a value are stripped. *)
Lemma Trim_quotes (s : string) :
  any_char (fun c => GoStrings.mem_char c "'") s = false ->
  GoStrings.Trim ("'" +:+ s +:+ "'") "'" = s.
Proof.
  intros Hs. unfold GoStrings.Trim, GoStrings.TrimFunc.
  rewrite append_cons, append_nil_l.
  change (GoStrings.TrimLeftFunc (fun c => GoStrings.mem_char c "'") (String "'" (s +:+ "'")))
    with (GoStrings.TrimLeftFunc (fun c => GoStrings.mem_char c "'") (s +:+ "'")).
  destruct s as [| c s]; [reflexivity |].
  rewrite TrimLeft_clean.
  - now apply TrimRight_strip.
  - unfold starts_clean. rewrite append_cons. cbn [first_char].
    cbn [any_char] in Hs. apply orb_false_iff in Hs as [Hc _]. now rewrite Hc.
Qed.

(** X7.  A comparison written as three ASCII tokens, [field operator value],
    parses to the field under the mapped operator and the converted value;
    single quotes around the value are stripped first, so that a quoted value
    parses like the same value without quotes. *)
Theorem parseCondition_comparison (field operator value : string) :
  GoStrings.is_ascii field = true -> GoStrings.is_ascii operator = true ->
  GoStrings.is_ascii value = true ->
  field <> "" -> operator <> "" -> value <> "" ->
  any_char GoStrings.is_space field = false ->
  any_char GoStrings.is_space operator = false ->
  any_char GoStrings.is_space value = false ->
  parseCondition (field +:+ " " +:+ operator +:+ " " +:+ value)
  = {[ field := VM {[ mapOperatorToMongo operator
                      := convertValue (GoStrings.Trim value "'") ]} ]}
  /\ (any_char (fun c => GoStrings.mem_char c "'") value = false ->
      parseCondition (field +:+ " " +:+ operator +:+ " " +:+ "'" +:+ value +:+ "'")
      = {[ field := VM {[ mapOperatorToMongo operator := convertValue value ]} ]}).
Proof.
  intros _ _ _ Hf Ho Hv Sf So Sv. split.
  - apply parseCondition_three. now apply Fields_three.
  - intros Hq.
    rewrite (parseCondition_three _ field operator ("'" +:+ value +:+ "'")).
    + now rewrite Trim_quotes.
    + apply Fields_three; try assumption; try discriminate.
      rewrite !any_char_append, Sv. reflexivity.
Qed.

Lemma mapOperatorToMongo_tags (operator : string) :
  mapOperatorToMongo operator = "" \/ In (mapOperatorToMongo operator) operator_tags.
Proof.
  unfold mapOperatorToMongo, operator_tags.
  repeat match goal with
         | |- context [String.eqb operator ?t] =>
             destruct (String.eqb operator t); [right; cbn; tauto |]
         end.
  now left.
Qed.

(** X8.  What [parseExpression] returns: a document with the one key [$expr],
    over one operator tag of the store, never the empty tag, and its two operands;
    or one of its two errors. *)
Theorem parseExpression_shape (expression : string) :
  (forall filter, parseExpression expression = inl filter ->
     exists tag left right,
       filter = {[ "$expr" := VM {[ tag := VA [left; right] ]} ]}
       /\ In tag operator_tags /\ tag <> "")
  /\ (forall msg, parseExpression expression = inr msg ->
        msg = "invalid expression format" \/ msg = "unsupported operator in expression").
Proof.
  unfold parseExpression.
  destruct (GoRegexp.FindStringSubmatch _ _) as [| whole [| operand1 [| operator [| operand2 l]]]];
    try (split; [discriminate | intros msg [= <-]; now left]).
  destruct (String.eqb_spec (mapOperatorToMongo operator) "") as [E | Hne].
  - split; [discriminate | intros msg [= <-]; now right].
  - split; [| discriminate]. intros filter [= <-].
    exists (mapOperatorToMongo operator), (parseFieldOrValue operand1),
      (parseFieldOrValue operand2).
    split; [reflexivity |]. split; [| assumption].
    destruct (mapOperatorToMongo_tags operator); [contradiction | assumption].
Qed.

End Expressions.

(** The comparison [age >= '42']. *)
Lemma parseCondition_comparison_witness :
  parseCondition "age >= 42" = {[ "age" := VM {[ "$gte" := VInt 42 ]} ]}
  /\ parseCondition "age >= '42'" = {[ "age" := VM {[ "$gte" := VInt 42 ]} ]}.
Proof.
  destruct (parseCondition_comparison "age" ">=" "42") as [H1 H2];
    [reflexivity | reflexivity | reflexivity | discriminate | discriminate | discriminate
    | reflexivity | reflexivity | reflexivity |].
  split; [exact H1 | exact (H2 eq_refl)].
Defined.

(* ================================================================== *)
(** ** The expression pattern *)
(* ================================================================== *)

Section ExpressionPattern.

Lemma match_here_cons (p : GoRegexp.piece) (re : list GoRegexp.piece) (s : string) :
  GoRegexp.match_here (p :: re) s
  = try_lengths p (GoRegexp.match_here re) s (GoRegexp.run_length (GoRegexp.cls p) s).
Proof.
  cbn [GoRegexp.match_here]. generalize (GoRegexp.run_length (GoRegexp.cls p) s) as n.
  induction n as [| n IH]; cbn [try_lengths]; [reflexivity |]. now rewrite IH.
Qed.

(** What a factor that matched has taken. *)
Lemma try_lengths_some (p : GoRegexp.piece) (cont : string -> option (list string * string))
    (s : string) (n : nat) (groups : list string) (rest : string) :
  try_lengths p cont s n = Some (groups, rest) ->
  exists k groups',
    (k <= n)%nat /\ (GoRegexp.plus p = true -> k <> O)
    /\ cont (GoStrings.drop k s) = Some (groups', rest)
    /\ groups = if GoRegexp.captured p then GoStrings.take k s :: groups' else groups'.
Proof.
  induction n as [| n IH]; cbn [try_lengths].
  - destruct (GoRegexp.plus p && (0 =? 0)%nat) eqn:Ep; [discriminate |].
    destruct (cont (GoStrings.drop 0 s)) as [[g r] |] eqn:Ec; [| discriminate].
    intros [= <- <-]. exists O, g. repeat split; [lia | | assumption].
    intros Hp. rewrite Hp in Ep. discriminate.
  - destruct (GoRegexp.plus p && (S n =? 0)%nat) eqn:Ep.
    + intros H. apply IH in H as (k & g & Hk & Hp & Hc & Hg).
      exists k, g. repeat split; try assumption. lia.
    + destruct (cont (GoStrings.drop (S n) s)) as [[g r] |] eqn:Ec.
      * intros [= <- <-]. exists (S n), g. repeat split; [lia | discriminate | assumption].
      * intros H. apply IH in H as (k & g & Hk & Hp & Hc & Hg).
        exists k, g. repeat split; try assumption. lia.
Qed.

(** A factor whose longest run lets the rest match takes that run. *)
Lemma try_lengths_longest (p : GoRegexp.piece) (cont : string -> option (list string * string))
    (s : string) (n : nat) (groups : list string) (rest : string) :
  cont (GoStrings.drop n s) = Some (groups, rest) ->
  (GoRegexp.plus p = true -> n <> O) ->
  try_lengths p cont s n
  = Some (if GoRegexp.captured p then GoStrings.take n s :: groups else groups, rest).
Proof.
  intros Hc Hp. destruct n as [| n]; cbn [try_lengths].
  - destruct (GoRegexp.plus p); [now contradiction Hp |]. cbn in *. now rewrite Hc.
  - rewrite andb_false_r. now rewrite Hc.
Qed.

Lemma run_length_any_char (f : ascii -> bool) (s : string) :
  GoRegexp.run_length f s <> O -> any_char f s = true.
Proof. destruct s as [| c s]; cbn; [congruence |]. now destruct (f c). Qed.

Lemma any_char_drop (f : ascii -> bool) (k : nat) (s : string) :
  any_char f (GoStrings.drop k s) = true -> any_char f s = true.
Proof.
  revert s. induction k as [| k IH]; intros s; [now destruct s |].
  destruct s as [| c s]; cbn; [discriminate |]. intros H. rewrite (IH s H). apply orb_true_r.
Qed.

(** The pattern matches only where an operator character follows. *)
Lemma expression_re_needs_operator (s : string) (r : list string * string) :
  GoRegexp.match_here expression_re s = Some r -> any_char operator_char s = true.
Proof.
  destruct r as [groups rest]. unfold expression_re. rewrite match_here_cons.
  intros (k1 & g1 & _ & _ & H & _)%try_lengths_some. rewrite match_here_cons in H.
  apply try_lengths_some in H as (k2 & g2 & _ & _ & H & _). rewrite match_here_cons in H.
  apply try_lengths_some in H as (k3 & g3 & Hk3 & Hp3 & _ & _).
  apply (any_char_drop _ k1), (any_char_drop _ k2), run_length_any_char.
  cbn in Hk3, Hp3. specialize (Hp3 eq_refl). lia.
Qed.

Lemma FindStringSubmatch_needs_operator (s : string) :
  any_char operator_char s = false -> GoRegexp.FindStringSubmatch expression_re s = [].
Proof.
  induction s as [| c s IH]; intros Hs.
  - reflexivity.
  - cbn [GoRegexp.FindStringSubmatch].
    destruct (GoRegexp.match_here expression_re (String c s)) as [r |] eqn:E.
    + apply expression_re_needs_operator in E. congruence.
    + apply IH. cbn in Hs. now apply orb_false_iff in Hs as [_ Hs].
Qed.

(** X9.  A condition that holds none of the characters [+ - * / > < =] is never
    an expression: [parseExpression] answers "invalid expression format",
    and [Match] and [Having] append what [parseConditions] makes of it. *)
Theorem expression_needs_operator_character (qb : QueryBuilder) (condition : string) :
  any_char operator_char condition = false ->
  parseExpression condition = inr "invalid expression format"
  /\ Match qb condition = append_stage qb (match_stage (parseConditions condition))
  /\ Having qb condition = append_stage qb (match_stage (parseConditions condition)).
Proof.
  intros Hs.
  assert (E : parseExpression condition = inr "invalid expression format").
  { unfold parseExpression.
    now rewrite FindStringSubmatch_needs_operator by now apply TrimSpace_any_char. }
  unfold Match, Having. rewrite E. now repeat split.
Qed.

Lemma run_length_append (f : ascii -> bool) (s t : string) :
  all_chars f s = true -> first_char f t = false ->
  GoRegexp.run_length f (s +:+ t) = String.length s.
Proof.
  intros Hs Ht. induction s as [| c s IH].
  - rewrite append_nil_l. destruct t as [| d t]; [reflexivity |]. cbn in *. now rewrite Ht.
  - cbn in Hs. apply andb_true_iff in Hs as [Hc Hs]. rewrite append_cons. cbn.
    now rewrite Hc, IH.
Qed.

Lemma operand_not_space (c : ascii) : operand_char c = true -> GoRegexp.space_char c = false.
Proof. destruct c as [[] [] [] [] [] [] [] []]; vm_compute; congruence. Qed.

Lemma operator_not_space (c : ascii) : operator_char c = true -> GoRegexp.space_char c = false.
Proof. destruct c as [[] [] [] [] [] [] [] []]; vm_compute; congruence. Qed.

Lemma first_char_append (f : ascii -> bool) (s t : string) :
  s <> "" -> first_char f (s +:+ t) = first_char f s.
Proof. destruct s; [contradiction | reflexivity]. Qed.

Lemma first_char_all (f g : ascii -> bool) (s : string) :
  (forall c, f c = true -> g c = false) -> s <> "" -> all_chars f s = true ->
  first_char g s = false.
Proof.
  intros Hfg Hs Ha. destruct s as [| c s]; [contradiction |]. cbn in *.
  apply andb_true_iff in Ha as [Hc _]. now apply Hfg.
Qed.

(** The match of the pattern on [a op b] followed by anything that does
    not go on with [b]. *)
Lemma expression_re_spaced (a op b tail : string) :
  a <> "" -> op <> "" -> b <> "" ->
  all_chars operand_char a = true -> all_chars operator_char op = true ->
  all_chars operand_char b = true -> first_char operand_char tail = false ->
  GoRegexp.match_here expression_re (a +:+ " " +:+ op +:+ " " +:+ b +:+ tail)
  = Some ([a; op; b], tail).
Proof.
  intros Ha Ho Hb Aa Ao Ab Ht. unfold expression_re.
  rewrite match_here_cons. cbn [GoRegexp.cls].
  rewrite (run_length_append operand_char a) by (try assumption; reflexivity).
  rewrite (try_lengths_longest _ _ _ _ [op; b] tail).
  - cbn [GoRegexp.captured]. now rewrite take_append.
  - rewrite drop_append, match_here_cons. cbn [GoRegexp.cls].
    rewrite (run_length_append GoRegexp.space_char " ");
      [| reflexivity
       | rewrite first_char_append by assumption;
         exact (first_char_all operator_char _ op operator_not_space Ho Ao)].
    rewrite (try_lengths_longest _ _ _ _ [op; b] tail); [reflexivity | | discriminate].
    rewrite drop_append, match_here_cons. cbn [GoRegexp.cls].
    rewrite (run_length_append operator_char op) by (try assumption; reflexivity).
    rewrite (try_lengths_longest _ _ _ _ [b] tail).
    + cbn [GoRegexp.captured]. now rewrite take_append.
    + rewrite drop_append, match_here_cons. cbn [GoRegexp.cls].
      rewrite (run_length_append GoRegexp.space_char " ");
        [| reflexivity
         | rewrite first_char_append by assumption;
           exact (first_char_all operand_char _ b operand_not_space Hb Ab)].
      rewrite (try_lengths_longest _ _ _ _ [b] tail); [reflexivity | | discriminate].
      rewrite drop_append, match_here_cons. cbn [GoRegexp.cls].
      rewrite (run_length_append operand_char b) by assumption.
      rewrite (try_lengths_longest _ _ _ _ [] tail).
      * cbn [GoRegexp.captured]. now rewrite take_append.
      * now rewrite drop_append.
      * intros _. destruct b; [contradiction | discriminate].
    + intros _. destruct op; [contradiction | discriminate].
  - intros _. destruct a; [contradiction | discriminate].
Qed.

(** X10.  [parseExpression] reads one comparison and drops what follows it: when
    the trimmed expression starts with [a op b], single spaces between them,
    and goes on with something that cannot continue [b] (a space, say, and
    an AND clause), the result is the comparison of [a] and [b] alone, or the
    error for an operator that is not mapped; [Match] then appends just that
    comparison. *)
Theorem parseExpression_drops_what_follows (qb : QueryBuilder)
    (expression a op b tail : string) :
  a <> "" -> op <> "" -> b <> "" ->
  all_chars operand_char a = true -> all_chars operator_char op = true ->
  all_chars operand_char b = true -> first_char operand_char tail = false ->
  GoStrings.TrimSpace expression = a +:+ " " +:+ op +:+ " " +:+ b +:+ tail ->
  (mapOperatorToMongo op = "" ->
   parseExpression expression = inr "unsupported operator in expression")
  /\ (mapOperatorToMongo op <> "" ->
      parseExpression expression
      = inl {[ "$expr" := VM {[ mapOperatorToMongo op
                                := VA [parseFieldOrValue a; parseFieldOrValue b] ]} ]}
      /\ Match qb expression
         = append_stage qb
             (match_stage {[ "$expr" := VM {[ mapOperatorToMongo op
                                              := VA [parseFieldOrValue a;
                                                     parseFieldOrValue b] ]} ]})).
Proof.
  intros Ha Ho Hb Aa Ao Ab Ht He.
  assert (E : exists whole,
             GoRegexp.FindStringSubmatch expression_re (GoStrings.TrimSpace expression)
             = [whole; a; op; b]).
  { rewrite He.
    pose proof (expression_re_spaced a op b tail Ha Ho Hb Aa Ao Ab Ht) as Hm.
    destruct (a +:+ " " +:+ op +:+ " " +:+ b +:+ tail) as [| c s] eqn:Es;
      cbn [GoRegexp.FindStringSubmatch]; rewrite Hm; eexists; reflexivity. }
  destruct E as [whole E]. unfold Match, parseExpression. rewrite E. split.
  - intros ->. reflexivity.
  - intros Hne. destruct (String.eqb_spec (mapOperatorToMongo op) ""); [contradiction |].
    split; reflexivity.
Qed.

End ExpressionPattern.

(** The condition [status LIKE 'a%']. *)
Lemma expression_needs_operator_character_witness :
  Match NewQueryBuilder "status LIKE 'a%'"
  = append_stage NewQueryBuilder (match_stage {[ "status" := VM {[ "" := VStr "a%" ]} ]}).
Proof.
  destruct (expression_needs_operator_character NewQueryBuilder "status LIKE 'a%'")
    as (_ & Hm & _); [reflexivity |].
  rewrite Hm. vm_compute. reflexivity.
Defined.

(** The condition [price > 100 AND stock > 50]. *)
Lemma parseExpression_drops_what_follows_witness :
  Match NewQueryBuilder "price > 100 AND stock > 50"
  = Match NewQueryBuilder "price > 100".
Proof.
  destruct (parseExpression_drops_what_follows NewQueryBuilder
              "price > 100 AND stock > 50" "price" ">" "100" " AND stock > 50")
    as [_ H];
    [discriminate | discriminate | discriminate
     | reflexivity | reflexivity | reflexivity | reflexivity | reflexivity |].
  destruct H as [_ ->]; [discriminate |]. vm_compute. reflexivity.
Defined.

(* ================================================================== *)
(** ** Aliases and nested groups *)
(* ================================================================== *)

Section Aliases.

Lemma drop_nil (k : nat) : GoStrings.drop k "" = "".
Proof. now destruct k. Qed.

(** Once no cut is allowed, the rest of the string is the last part. *)
Lemma split_loop_last (sep s : string) (skip : nat) (cur : string) :
  GoStrings.split_loop sep s skip (Some O) cur = [cur +:+ GoStrings.drop skip s].
Proof.
  revert skip cur. induction s as [| c s IH]; intros skip cur.
  - now rewrite drop_nil, append_empty_r.
  - destruct skip as [| skip]; cbn [GoStrings.split_loop GoStrings.drop].
    + rewrite IH, snoc_append. now destruct s.
    + apply IH.
Qed.

(** With one cut allowed, the string is cut at the first occurrence of the
    separator. *)
Lemma split_loop_first_cut (sep s cur : string) :
  sep <> "" ->
  GoStrings.split_loop sep s 0 (Some 1%nat) cur
  = match GoStrings.index_nat s sep with
    | Some i => [cur +:+ GoStrings.take i s; GoStrings.drop (i + String.length sep) s]
    | None => [cur +:+ s]
    end.
Proof.
  intros Hsep. revert cur. induction s as [| c s IH]; intros cur.
  - destruct sep; [contradiction | cbn; now rewrite append_empty_r].
  - cbn [GoStrings.split_loop GoStrings.index_nat].
    destruct (GoStrings.HasPrefix (String c s) sep) eqn:Ep.
    + cbn [option_map Nat.pred GoStrings.take]. rewrite split_loop_last, append_empty_r.
      destruct sep as [| d sep]; [contradiction |]. cbn. now rewrite Nat.sub_0_r.
    + rewrite IH. destruct (GoStrings.index_nat s sep) as [i |]; cbn [option_map];
        now rewrite snoc_append.
Qed.

Lemma SplitN_two (s sep : string) :
  sep <> "" ->
  GoStrings.SplitN s sep 2
  = match GoStrings.index_nat s sep with
    | Some i => [GoStrings.take i s; GoStrings.drop (i + String.length sep) s]
    | None => [s]
    end.
Proof.
  intros Hsep. unfold GoStrings.SplitN.
  destruct sep as [| d sep]; [contradiction |]. cbn [GoStrings.is_empty Z.eqb Z.ltb Z.compare].
  change (Z.to_nat 2 - 1)%nat with 1%nat.
  now rewrite split_loop_first_cut by discriminate.
Qed.

Lemma HasPrefix_ToUpper (s p : string) :
  GoStrings.HasPrefix s p = true ->
  GoStrings.HasPrefix (GoStrings.ToUpper s) (GoStrings.ToUpper p) = true.
Proof.
  revert s. induction p as [| d p IH]; intros s; [now destruct s |].
  destruct s as [| c s]; [discriminate |]. cbn.
  intros [Hc Hs]%andb_true_iff. apply Ascii.eqb_eq in Hc as ->.
  now rewrite Ascii.eqb_refl, IH.
Qed.

(** An occurrence of [p] in [s] is an occurrence of the upper-cased [p] in
    the upper-cased [s]. *)
Lemma index_nat_ToUpper (s p : string) (i : nat) :
  GoStrings.index_nat s p = Some i ->
  exists j, GoStrings.index_nat (GoStrings.ToUpper s) (GoStrings.ToUpper p) = Some j.
Proof.
  revert i. induction s as [| c s IH]; intros i.
  - destruct p; [now exists O | discriminate].
  - cbn [GoStrings.index_nat]. destruct (GoStrings.HasPrefix (String c s) p) eqn:E.
    + intros _. exists O. apply HasPrefix_ToUpper in E.
      change (GoStrings.ToUpper (String c s)) with (String (GoStrings.upper c) (GoStrings.ToUpper s)) in *.
      cbn [GoStrings.index_nat]. now rewrite E.
    + destruct (GoStrings.index_nat s p) as [i' |] eqn:Ei; [| discriminate].
      intros _. destruct (IH i' eq_refl) as [j Hj].
      change (GoStrings.ToUpper (String c s)) with (String (GoStrings.upper c) (GoStrings.ToUpper s)).
      cbn [GoStrings.index_nat]. rewrite Hj. clear E.
      destruct (GoStrings.HasPrefix (String (GoStrings.upper c) (GoStrings.ToUpper s))
                  (GoStrings.ToUpper p)); eexists; reflexivity.
Qed.

Lemma Index_nonneg (s p : string) (i : Z) :
  GoStrings.Index s p = i -> 0 <= i ->
  GoStrings.index_nat s p = Some (Z.to_nat i).
Proof.
  unfold GoStrings.Index. destruct (GoStrings.index_nat s p) as [k |]; intros <- H; [| lia].
  now rewrite Nat2Z.id.
Qed.

Lemma Index_absent (s p : string) :
  GoStrings.Index s p = -1 <-> GoStrings.index_nat s p = None.
Proof.
  unfold GoStrings.Index. destruct (GoStrings.index_nat s p); split; try discriminate; try lia.
  reflexivity.
Qed.

(** X11.  [parseAlias] on an ASCII spec, case by case.  A spec that holds
    [" AS "] in no letter case is its own alias.  A spec that holds the
    upper-case [" AS "] has as alias the trimmed text after its first
    occurrence.  A spec that holds the separator in another letter case only
    makes [parseAlias] panic. *)
Theorem parseAlias_cases (field : string) :
  GoStrings.is_ascii field = true ->
  (GoStrings.Contains (GoStrings.ToUpper field) " AS " = false ->
   parseAlias field = Returns field)
  /\ (forall i, GoStrings.Index field " AS " = i -> 0 <= i ->
        parseAlias field
        = Returns (GoStrings.TrimSpace (GoStrings.slice_from field (i + 4))))
  /\ (GoStrings.Contains (GoStrings.ToUpper field) " AS " = true ->
      GoStrings.Index field " AS " = -1 ->
      parseAlias field = Panics "index out of range [1] with length 1").
Proof.
  intros _. unfold parseAlias. rewrite SplitN_two by discriminate. repeat split.
  - now intros ->.
  - intros i Hi Hpos. pose proof (Index_nonneg _ _ _ Hi Hpos) as Hn.
    destruct (index_nat_ToUpper _ _ _ Hn) as [j Hj].
    change (GoStrings.ToUpper " AS ") with " AS " in Hj.
    unfold GoStrings.Contains, GoStrings.Index. rewrite Hj, Hn.
    destruct (Z.leb_spec 0 (Z.of_nat j)); [| lia].
    unfold GoStrings.slice_from. do 3 f_equal. cbn [String.length]. lia.
  - intros -> Hi. apply Index_absent in Hi. now rewrite Hi.
Qed.

Lemma nested_group_loop_keys (aggregations : list string) (group group' : bsonM) :
  nested_group_loop aggregations group = Returns group' ->
  (forall k, is_Some (group !! k) -> is_Some (group' !! k))
  /\ (forall k v, group' !! k = Some v ->
        group !! k = Some v
        \/ exists agg m, agg ∈ aggregations /\ parseAlias agg = Returns k
                         /\ parseAggregation agg = inl m /\ v = VM m).
Proof.
  revert group. induction aggregations as [| agg aggs IH]; intros group; cbn.
  - intros [= <-]. split; [tauto | intros; now left].
  - destruct (parseAlias agg) as [alias | msg] eqn:Ea; cbn; [| discriminate].
    destruct (parseAggregation agg) as [m | e] eqn:Em.
    + intros H. apply IH in H as [H1 H2]. split.
      * intros k Hk. apply H1. destruct (decide (alias = k)) as [-> | Hne].
        -- rewrite lookup_insert_eq. eauto.
        -- now rewrite lookup_insert_ne.
      * intros k v Hv. destruct (H2 k v Hv) as [Hg | (a & m' & Hin & Hal & Hag & ->)].
        -- destruct (decide (alias = k)) as [-> | Hne].
           ++ rewrite lookup_insert_eq in Hg. injection Hg as <-.
              right. exists agg, m. repeat split; try assumption. now left.
           ++ rewrite lookup_insert_ne in Hg by assumption. now left.
        -- right. exists a, m'. repeat split; try assumption. now right.
    + intros H. apply IH in H as [H1 H2]. split; [assumption |].
      intros k v Hv. destruct (H2 k v Hv) as [Hg | (a & m' & Hin & Hal & Hag & ->)].
      * now left.
      * right. exists a, m'. repeat split; try assumption. now right.
Qed.

(** X12.  When [NestedGroupBy] returns, it has appended one [$group] stage.  The
    stage has the key [_id]; every other key is the alias of one of the
    aggregations that are supported (the others are passed over), with that
    aggregation as its value; and [_id] is the grouping field unless an
    aggregation is given the alias [_id]. *)
Theorem NestedGroupBy_group_stage (qb qb' : QueryBuilder) (field : string)
    (aggregations : list string) :
  NestedGroupBy qb field aggregations = Returns qb' ->
  exists group : bsonM,
    qb' = append_stage qb [("$group", VM group)]
    /\ is_Some (group !! "_id")
    /\ (forall k v, group !! k = Some v -> k <> "_id" ->
          exists agg m, agg ∈ aggregations /\ parseAlias agg = Returns k
                        /\ parseAggregation agg = inl m /\ v = VM m)
    /\ ((forall agg, agg ∈ aggregations -> parseAlias agg <> Returns "_id") ->
        group !! "_id" = Some (VStr (String.append "$" field))).
Proof.
  unfold NestedGroupBy.
  destruct (nested_group_loop aggregations _) as [group |] eqn:E; cbn; [| discriminate].
  intros [= <-]. exists group. apply nested_group_loop_keys in E as [H1 H2].
  split; [reflexivity |]. split; [| split].
  - apply H1. rewrite lookup_singleton_eq. eauto.
  - intros k v Hv Hk. destruct (H2 k v Hv) as [Hg | H]; [| exact H].
    rewrite lookup_singleton_ne in Hg by congruence. discriminate.
  - intros Hno. destruct (H1 "_id") as [v Hv]; [rewrite lookup_singleton_eq; eauto |].
    destruct (H2 "_id" v Hv) as [Hg | (a & m & Hin & Hal & _)].
    + rewrite lookup_singleton_eq in Hg. congruence.
    + now apply Hno in Hin.
Qed.

End Aliases.

(** The three cases: no separator, [" AS "], and [" as "]. *)
Lemma parseAlias_cases_witness :
  parseAlias "COUNT(*)" = Returns "COUNT(*)"
  /\ parseAlias "SUM(amount) AS  total " = Returns "total"
  /\ parseAlias "SUM(amount) as total" = Panics "index out of range [1] with length 1".
Proof.
  destruct (parseAlias_cases "COUNT(*)" eq_refl) as (H1 & _ & _).
  destruct (parseAlias_cases "SUM(amount) AS  total " eq_refl) as (_ & H2 & _).
  destruct (parseAlias_cases "SUM(amount) as total" eq_refl) as (_ & _ & H3).
  repeat apply conj.
  - exact (H1 eq_refl).
  - apply (H2 11); [reflexivity | lia].
  - apply H3; reflexivity.
Defined.

(** One supported aggregation, one that is not, and one without alias. *)
Lemma NestedGroupBy_group_stage_witness :
  exists group : bsonM,
    NestedGroupBy NewQueryBuilder "region" ["COUNT(*) AS cnt"; "MAX(x) AS m"; "COUNT(*)"]
    = Returns (append_stage NewQueryBuilder [("$group", VM group)])
    /\ group !! "_id" = Some (VStr "$region")
    /\ group !! "m" = None.
Proof.
  destruct (NestedGroupBy_group_stage NewQueryBuilder
              (append_stage NewQueryBuilder
                 [("$group", VM (<["_id" := VStr "$region"]>
                                 (<["cnt" := VM {[ "$sum" := VInt 1 ]}]>
                                  (<["COUNT(*)" := VM {[ "$sum" := VInt 1 ]}]> ∅))))])
              "region" ["COUNT(*) AS cnt"; "MAX(x) AS m"; "COUNT(*)"])
    as (group & E & _ & _ & Hid); [vm_compute; reflexivity |].
  exists group. split; [now rewrite <- E; vm_compute |]. split.
  - apply Hid. intros agg Hin.
    repeat (apply elem_of_cons in Hin as [-> | Hin]; [vm_compute; discriminate |]).
    now apply elem_of_nil in Hin.
  - injection E as E. apply (f_equal (fun m => m !! "m")) in E.
    rewrite <- E. vm_compute. reflexivity.
Defined.

(* ================================================================== *)
(** ** The SQL front end *)
(* ================================================================== *)

Section FrontEnd.

#[local] Arguments parse_clause : simpl never.
#[local] Arguments parse_limit_clause : simpl never.

Lemma extractCollection_no_space (text : string) :
  GoStrings.Index text " " = -1 ->
  extractCollection text = Panics "index out of range [1] with length 1".
Proof.
  intros Hi. unfold extractCollection. rewrite SplitN_two by discriminate.
  apply Index_absent in Hi. now rewrite Hi.
Qed.

(** X13.  [extractCollection] cuts the text at its first space: the collection is
    what stands before it, the rest what stands after it; on a text without
    a space it panics. *)
Theorem extractCollection_first_space (text : string) :
  (GoStrings.Index text " " = -1 ->
   extractCollection text = Panics "index out of range [1] with length 1")
  /\ (forall i, GoStrings.Index text " " = i -> 0 <= i ->
        extractCollection text
        = Returns (GoStrings.slice_to text i, GoStrings.slice_from text (i + 1))).
Proof.
  unfold extractCollection. rewrite SplitN_two by discriminate. split.
  - intros Hi. apply Index_absent in Hi. now rewrite Hi.
  - intros i Hi Hpos. rewrite (Index_nonneg _ _ _ Hi Hpos).
    unfold GoStrings.slice_to, GoStrings.slice_from. do 3 f_equal. cbn [String.length]. lia.
Qed.

Lemma Join_cons (e : string) (rest : list string) (sep : string) :
  rest <> [] -> GoStrings.Join (e :: rest) sep = e +:+ sep +:+ GoStrings.Join rest sep.
Proof. destruct rest; [contradiction | reflexivity]. Qed.

(** Joining with spaces what was split on spaces gives the string back. *)
Lemma Join_split_loop (s cur : string) :
  GoStrings.Join (GoStrings.split_loop " " s 0 None cur) " " = cur +:+ s.
Proof.
  revert cur. induction s as [| c s IH]; intros cur.
  - cbn. now rewrite append_empty_r.
  - rewrite split_loop_space. destruct (Ascii.eqb_spec c " ") as [-> | Hc].
    + rewrite Join_cons by apply split_loop_nonempty. now rewrite IH.
    + now rewrite IH, snoc_append.
Qed.

Lemma Join_Split (s : string) : GoStrings.Join (GoStrings.Split s " ") " " = s.
Proof. unfold GoStrings.Split, GoStrings.SplitN. cbn. apply Join_split_loop. Qed.

Lemma split_loop_first_token (w rest cur : string) :
  GoStrings.mem_char " " w = false ->
  GoStrings.split_loop " " (w +:+ String " " rest) 0 None cur
  = (cur +:+ w) :: GoStrings.split_loop " " rest 0 None "".
Proof.
  revert cur. induction w as [| c w IH]; intros cur Hw.
  - rewrite append_nil_l, split_loop_space, append_empty_r. reflexivity.
  - rewrite mem_space_cons in Hw. apply orb_false_iff in Hw as [Hc Hw].
    rewrite append_cons, split_loop_space, Hc, IH by assumption.
    now rewrite snoc_append.
Qed.

Lemma Split_first_token (w rest : string) :
  GoStrings.mem_char " " w = false ->
  GoStrings.Split (w +:+ String " " rest) " " = w :: GoStrings.Split rest " ".
Proof.
  intros Hw. unfold GoStrings.Split, GoStrings.SplitN. cbn [Z.eqb Z.ltb Z.compare GoStrings.is_empty].
  now rewrite split_loop_first_token.
Qed.

Lemma extractFields_select (keyword text : string) :
  GoStrings.mem_char " " keyword = false -> GoStrings.ToUpper keyword = "SELECT" ->
  exists fields,
    extractFields (GoStrings.Split (keyword +:+ String " " text) " ")
    = Returns (fields, after_from text).
Proof.
  intros Hk Hu. rewrite Split_first_token by assumption. unfold extractFields.
  rewrite Hu. cbn [String.eqb Ascii.eqb Bool.eqb negb]. rewrite Join_Split.
  unfold after_from. change (GoStrings.len " FROM ") with 6.
  destruct (GoStrings.Index (GoStrings.ToUpper text) " FROM " =? -1); eexists; reflexivity.
Qed.

(** X14.  [ParseSQL] panics on every ASCII statement in which no space
    follows the collection name, such as [SELECT a FROM orders]: when the
    trimmed statement is SELECT (in any letter case), a space, and a text
    whose part after FROM holds no space. *)
Theorem ParseSQL_panics_without_clause (sp : SQLParser) (keyword text : string) :
  GoStrings.is_ascii (query sp) = true ->
  GoStrings.TrimSpace (query sp) = keyword +:+ String " " text ->
  GoStrings.mem_char " " keyword = false -> GoStrings.ToUpper keyword = "SELECT" ->
  GoStrings.Index (after_from text) " " = -1 ->
  ParseSQL sp = Panics "index out of range [1] with length 1".
Proof.
  intros _ Hq Hk Hu Hi. unfold ParseSQL, parse_clauses. rewrite Hq.
  destruct (extractFields_select keyword text Hk Hu) as [fields ->]. cbn.
  rewrite (extractCollection_no_space (after_from text) Hi). reflexivity.
Qed.

Lemma parse_clause_cases (keyword : string) (method : QueryBuilder -> string -> QueryBuilder)
    (qb : QueryBuilder) (rest : string) :
  exists rest', parse_clause keyword method (qb, rest) = (qb, rest')
                \/ exists clause, parse_clause keyword method (qb, rest) = (method qb clause, rest').
Proof.
  unfold parse_clause. destruct (GoStrings.Contains _ keyword).
  - destruct (extractClause keyword rest) as [clause remaining].
    exists remaining. right. eexists. reflexivity.
  - exists rest. now left.
Qed.

(** X15.  What [ParseSQL] can return.  Its only error is "invalid LIMIT value".
    The builder it returns has no deferred offset; its pipeline holds at most
    a [$match], a [$group], a [$match] and a [$sort] stage, in this order,
    and so never a [$project], [$lookup], [$skip] or [$limit] stage: the
    SELECT fields are recorded in the builder and not projected. *)
Theorem ParseSQL_results (sp : SQLParser) :
  (forall err, ParseSQL sp = Returns (inr err) -> err = "invalid LIMIT value")
  /\ (forall qb, ParseSQL sp = Returns (inl qb) ->
        OffsetVal qb = 0
        /\ sublist (map stage_key (Pipeline qb)) ["$match"; "$group"; "$match"; "$sort"]).
Proof.
  unfold ParseSQL, parse_clauses.
  destruct (extractFields _) as [[fields rest] | msg]; cbn; [| split; intros ?; discriminate].
  destruct (extractCollection rest) as [[collection rest1] | msg]; cbn;
    [| split; intros ?; discriminate].
  repeat match goal with
         | |- context [parse_clause ?kw ?m (?q, ?r)] =>
             let r' := fresh "r" in
             let c := fresh "c" in
             destruct (parse_clause_cases kw m q r) as [r' [-> | [c ->]]]
         end.
  all: unfold parse_limit_clause.
  all: match goal with
       | |- context [GoStrings.Contains (GoStrings.ToUpper ?r) "LIMIT"] =>
           destruct (GoStrings.Contains (GoStrings.ToUpper r) "LIMIT");
           [destruct (extractClause "LIMIT" r) as [limitClause remaining];
            unfold parseLimit; destruct (GoStrconv.ParseInt _) |]
       end.
  all: split.
  all: try (intros err [= <-]; reflexivity).
  all: try (intros err HH; discriminate HH).
  all: intros qb [= <-]; split; [reflexivity |].
  all: cbn; repeat first [apply sublist_nil | apply sublist_skip | apply sublist_cons].
Qed.

End FrontEnd.

(** The statement [select a, b from orders]. *)
Lemma ParseSQL_panics_without_clause_witness :
  ParseSQL (NewSQLParser "  select a, b from orders ")
  = Panics "index out of range [1] with length 1".
Proof.
  apply (ParseSQL_panics_without_clause _ "select" "a, b from orders");
    vm_compute; reflexivity.
Defined.

(* ================================================================== *)
(** ** The value of the LIMIT clause *)
(* ================================================================== *)

Section LimitValue.

Lemma ToUpper_length (s : string) :
  String.length (GoStrings.ToUpper s) = String.length s.
Proof. induction s as [| c s IH]; [reflexivity |]. cbn. now rewrite IH. Qed.

Lemma Index_negative (s p : string) : GoStrings.Index s p < 0 -> GoStrings.Index s p = -1.
Proof. unfold GoStrings.Index. destruct (GoStrings.index_nat s p); lia. Qed.

(** The keywords a text does not mention are passed over. *)
Lemma next_keyword_loop_absent (before keywords : list string) (tail : string) :
  Forall (fun k => mentions tail k = false) before ->
  next_keyword_loop (before ++ keywords) tail = next_keyword_loop keywords tail.
Proof.
  induction 1 as [| k ks Hk _ IH]; [reflexivity |].
  cbn [app next_keyword_loop]. unfold mentions, GoStrings.Contains in Hk.
  apply Z.leb_gt, Index_negative in Hk. now rewrite Hk.
Qed.

(** [extractClause] ends the clause where [clause_text] says. *)
Lemma clause_text_end (tail text : string) :
  clause_text tail text ->
  (if findNextKeyword tail =? -1 then GoStrings.TrimSpace tail
   else GoStrings.TrimSpace (GoStrings.slice_to tail (findNextKeyword tail)))
  = GoStrings.TrimSpace text.
Proof.
  change (findNextKeyword tail) with (next_keyword_loop clause_keywords tail).
  intros [Hno | before after k text' more Hk Hno -> Hi].
  - rewrite <- (app_nil_r clause_keywords), next_keyword_loop_absent by assumption.
    reflexivity.
  - rewrite Hk, next_keyword_loop_absent by assumption. cbn [next_keyword_loop].
    rewrite Hi. unfold GoStrings.len, GoStrings.slice_to.
    destruct (Z.eqb_spec (Z.of_nat (String.length text')) (-1)) as [E | _]; [lia |].
    cbn [negb]. destruct (Z.eqb_spec (Z.of_nat (String.length text')) (-1)) as [E | _]; [lia |].
    now rewrite Nat2Z.id, take_append.
Qed.

(** C9, amended.  [ParseSQL] on an ASCII statement, when the clauses before
    LIMIT have been read and the text [rest] they leave holds the letters
    LIMIT in some letter case.  The LIMIT value is then read after the first
    such occurrence, wherever it stands, also inside a name: it is the text
    that follows ([clause_text]), up to the first occurrence of the first of
    the keywords WHERE, GROUP BY, HAVING, ORDER BY and LIMIT that this text
    mentions, or to its end when it mentions none, without the white space
    around it.  If that value is a signed decimal 64-bit integer, an optional
    [+] or [-] and decimal digits within [int64], it becomes the deferred
    limit of the builder returned; on every other value the whole parse
    returns the error "invalid LIMIT value" and no builder. *)
Theorem limit_clause_signed_integer (sp : SQLParser) (qb : QueryBuilder)
    (rest pre kw tail text : string) :
  GoStrings.is_ascii (query sp) = true ->
  parse_clauses sp = Returns (qb, rest) ->
  rest = pre +:+ kw +:+ tail ->
  GoStrings.ToUpper kw = "LIMIT" ->
  GoStrings.Index (GoStrings.ToUpper rest) "LIMIT" = GoStrings.len pre ->
  clause_text tail text ->
  let value := GoStrings.TrimSpace text in
  (forall n, int64_literal value n -> ParseSQL sp = Returns (inl (Limit qb n)))
  /\ ((forall n, ~ int64_literal value n) ->
      ParseSQL sp = Returns (inr "invalid LIMIT value")).
Proof.
  intros _ Hc Hrest Hkw Hi Htext value.
  assert (Hlen : String.length kw = 5%nat).
  { rewrite <- ToUpper_length, Hkw. reflexivity. }
  assert (Hv : GoStrings.TrimSpace (fst (extractClause "LIMIT" rest)) = value).
  { unfold extractClause. rewrite Hi.
    destruct (Z.eqb_spec (GoStrings.len pre) (-1)) as [E | _];
      [unfold GoStrings.len in E; lia |].
    assert (Hd : GoStrings.slice_from rest (GoStrings.len pre + GoStrings.len "LIMIT") = tail).
    { unfold GoStrings.slice_from. rewrite Hrest, <- append_assoc.
      replace (Z.to_nat (GoStrings.len pre + GoStrings.len "LIMIT"))
        with (String.length (pre +:+ kw))
        by (rewrite length_append, Hlen; unfold GoStrings.len; cbn [String.length]; lia).
      apply drop_append. }
    rewrite Hd. generalize (clause_text_end tail text Htext).
    destruct (findNextKeyword tail =? -1); cbn [fst];
      intros ->; apply TrimSpace_idempotent. }
  unfold ParseSQL. rewrite Hc. cbn. unfold GoStrings.Contains. rewrite Hi.
  destruct (Z.leb_spec 0 (GoStrings.len pre)) as [_ | E];
    [| unfold GoStrings.len in E; lia].
  destruct (extractClause "LIMIT" rest) as [limitClause remaining]. cbn [fst] in Hv.
  rewrite Hv. split.
  - intros n Hn. apply parseLimit_literal in Hn. now rewrite Hn.
  - intros Hn. now rewrite (parseLimit_invalid _ Hn).
Qed.

End LimitValue.

(** The statements [SELECT a FROM t LIMIT 10], whose value runs to the end,
    and [SELECT a FROM t WHERE credit_limit > 100 LIMIT 10], whose value is
    read after the first LIMIT and ends at the second. *)
Lemma limit_clause_signed_integer_witness :
  ParseSQL (NewSQLParser "SELECT a FROM t LIMIT 10")
  = Returns (inl (Limit (mkQueryBuilder "t" ["a"] None None None 0 0 []) 10))
  /\ ParseSQL (NewSQLParser "SELECT a FROM t WHERE credit_limit > 100 LIMIT 10")
     = Returns (inr "invalid LIMIT value").
Proof.
  split.
  - destruct (limit_clause_signed_integer (NewSQLParser "SELECT a FROM t LIMIT 10")
                (mkQueryBuilder "t" ["a"] None None None 0 0 []) "LIMIT 10"
                "" "LIMIT" " 10" " 10")
      as [Hn _];
      [reflexivity | vm_compute; reflexivity | reflexivity | reflexivity | reflexivity
      | apply clause_to_end; repeat constructor |].
    apply Hn. apply (lit_unsigned "10"); [discriminate | reflexivity | vm_compute; reflexivity].
  - destruct (limit_clause_signed_integer
                (NewSQLParser "SELECT a FROM t WHERE credit_limit > 100 LIMIT 10")
                (Match (mkQueryBuilder "t" ["a"] None None None 0 0 []) "credit_")
                "limit > 100 LIMIT 10" "" "limit" " > 100 LIMIT 10" " > 100 ")
      as [_ He];
      [reflexivity | vm_compute; reflexivity | reflexivity | reflexivity | reflexivity
      | apply (clause_to_keyword _ ["WHERE"; "GROUP BY"; "HAVING"; "ORDER BY"] [] "LIMIT"
                 " > 100 " "LIMIT 10");
        [reflexivity | repeat constructor | reflexivity | reflexivity] |].
    apply He. intros n Hn. inversion Hn; discriminate.
Defined.

(* ================================================================== *)
(** ** The insert, update and index builders *)
(* ================================================================== *)

Section Insert.

Variable db : InsertStore.

Lemma fill_document_zip (fields : list string) (row : list Value) (i : nat)
    (document : bsonM) :
  (i + length fields <= length row)%nat ->
  fill_document fields row i document
  = Returns (fold_left (fun document fv => <[fst fv := snd fv]> document)
               (zip fields (drop i row)) document).
Proof.
  revert i document. induction fields as [| f fields IH]; intros i document Hlen; cbn.
  - reflexivity.
  - destruct (row !! i) as [v |] eqn:Ev.
    + rewrite IH by (cbn in Hlen; lia).
      rewrite (drop_S row v i Ev). reflexivity.
    + apply lookup_ge_None in Ev. cbn in Hlen. lia.
Qed.

Lemma fill_documents_rows (fields : list string) (rows : list (list Value))
    (documents : list bsonM) :
  Forall (fun row => length row = length fields) rows ->
  fill_documents fields rows documents
  = Returns (documents ++ map (row_document fields) rows).
Proof.
  intros H. revert documents. induction H as [| row rows Hrow _ IH]; intros documents; cbn.
  - now rewrite app_nil_r.
  - rewrite fill_document_zip by (cbn; lia). cbn. rewrite IH, <- app_assoc. reflexivity.
Qed.

(** X16.  [Values] returns exactly on a row with one value for each field, and
    then keeps the builder's rows matching its fields.  On such a builder
    with a collection [Execute] does not panic: it makes one document of
    each row, in order, and answers "no documents to insert" without
    calling the store when there is no row, calls [InsertOne] when there is
    one and [InsertMany] when there are more. *)
Theorem InsertExecute_rows_match_fields (ib : InsertBuilder) :
  rows_match_fields ib ->
  (forall values ib', Values ib values = Returns ib' ->
     length values = length (ib_Fields ib) /\ rows_match_fields ib'
     /\ ib_ValuesList ib' = ib_ValuesList ib ++ [values])
  /\ (forall values, length values <> length (ib_Fields ib) ->
        Values ib values = Panics "number of values must match the number of fields")
  /\ (ib_Collection ib <> "" ->
      InsertExecute ib db
      = match map (row_document (ib_Fields ib)) (ib_ValuesList ib) with
        | [] => Returns (inr "no documents to insert")
        | [document] =>
            match InsertOne db (ib_Collection ib) document with
            | inr err => Returns (inr (String.append "failed to insert document: " err))
            | inl insertedID => Returns (inl insertedID)
            end
        | documents =>
            match InsertMany db (ib_Collection ib) documents with
            | inr err => Returns (inr (String.append "failed to insert documents: " err))
            | inl insertedIDs => Returns (inl (VA insertedIDs))
            end
        end).
Proof.
  intros Hwf. split; [| split].
  - intros values ib'. unfold Values.
    destruct (Nat.eqb_spec (length values) (length (ib_Fields ib))) as [E | E]; cbn;
      [| discriminate].
    intros [= <-]. cbn. split; [assumption |]. split; [| reflexivity].
    unfold rows_match_fields. cbn. apply Forall_app. split; [assumption |].
    now constructor.
  - intros values Hne. unfold Values.
    destruct (Nat.eqb_spec (length values) (length (ib_Fields ib))); [contradiction | reflexivity].
  - intros Hc. unfold InsertExecute.
    destruct (String.eqb_spec (ib_Collection ib) ""); [contradiction |].
    rewrite fill_documents_rows by assumption. cbn.
    destruct (map _ _) as [| d [| d' ds]]; reflexivity.
Qed.

Lemma row_document_from (fields : list string) (row : list Value) (document : bsonM) :
  NoDup fields -> length row = length fields ->
  (forall i f v, fields !! i = Some f -> row !! i = Some v ->
     fold_left (fun document fv => <[fst fv := snd fv]> document) (zip fields row) document
       !! f = Some v)
  /\ (forall k, k ∉ fields ->
        fold_left (fun document fv => <[fst fv := snd fv]> document) (zip fields row) document
          !! k = document !! k).
Proof.
  intros Hnd. revert row document.
  induction Hnd as [| f fields Hf Hnd IH]; intros row document Hlen.
  - split; [intros i f v Hi; now rewrite lookup_nil in Hi | reflexivity].
  - destruct row as [| v row]; [discriminate |]. cbn in Hlen.
    destruct (IH row (<[f := v]> document)) as [IH1 IH2]; [lia |]. cbn. split.
    + intros [| i] g w Hg Hw; cbn in Hg, Hw.
      * injection Hg as <-. injection Hw as <-.
        rewrite IH2 by assumption. apply lookup_insert_eq.
      * now apply (IH1 i).
    + intros k [Hne Hk]%not_elem_of_cons. rewrite IH2 by assumption.
      now rewrite lookup_insert_ne.
Qed.

(** X17.  The document of a row: under distinct field names, each field holds the
    value at its position in the row, and the document has no other key. *)
Theorem row_document_lookup (fields : list string) (row : list Value) :
  NoDup fields -> length row = length fields ->
  fill_document fields row 0 ∅ = Returns (row_document fields row)
  /\ (forall i f v, fields !! i = Some f -> row !! i = Some v ->
        row_document fields row !! f = Some v)
  /\ (forall k, k ∉ fields -> row_document fields row !! k = None).
Proof.
  intros Hnd Hlen. destruct (row_document_from fields row ∅ Hnd Hlen) as [H1 H2].
  split; [| split].
  - rewrite fill_document_zip by (cbn; lia). reflexivity.
  - exact H1.
  - intros k Hk. unfold row_document. now rewrite (H2 k Hk).
Qed.

(** X18.  A row shorter than the field list, which [InsertInto] called after
    [Values] can leave in the builder, makes [Execute] panic: when the
    first row is too short, the index of its first missing value is out of
    range. *)
Theorem InsertExecute_short_row (ib : InsertBuilder) (row : list Value)
    (rows : list (list Value)) :
  ib_Collection ib <> "" -> ib_ValuesList ib = row :: rows ->
  (length row < length (ib_Fields ib))%nat ->
  InsertExecute ib db
  = Panics (String.append "index out of range ["
              (String.append (pretty (length row))
                 (String.append "] with length " (pretty (length row))))).
Proof.
  intros Hc Hrows Hlen. unfold InsertExecute.
  destruct (String.eqb_spec (ib_Collection ib) ""); [contradiction |].
  rewrite Hrows. cbn [fill_documents].
  assert (H : forall fields i document,
             (i <= length row < i + length fields)%nat ->
             fill_document fields row i document
             = Panics (String.append "index out of range ["
                         (String.append (pretty (length row))
                            (String.append "] with length " (pretty (length row)))))).
  { induction fields as [| f fields IH]; intros i document Hi; cbn in *; [lia |].
    destruct (row !! i) as [v |] eqn:Ev.
    - apply lookup_lt_Some in Ev. apply IH. lia.
    - apply lookup_ge_None in Ev. replace i with (length row) by lia. reflexivity. }
  rewrite H by lia. reflexivity.
Qed.

End Insert.

Section UpdateAndIndex.

Lemma apply_update_calls_fields (calls : list update_call) (ub : UpdateBuilder) :
  ub_Collection (apply_update_calls ub calls) = ub_Collection ub
  /\ ub_Filter (apply_update_calls ub calls)
     = from_option parseConditions (ub_Filter ub) (last_where calls)
  /\ ub_UpdateData (apply_update_calls ub calls)
     = from_option (fun data => <["$set" := VM data]> (ub_UpdateData ub)) (ub_UpdateData ub)
         (last_set calls)
  /\ ub_Multi (apply_update_calls ub calls) = default (ub_Multi ub) (last_multi calls).
Proof.
  induction calls as [| c calls IH] using rev_ind; [now repeat split |].
  destruct IH as (Hc & Hf & Hu & Hm).
  unfold apply_update_calls, last_where, last_set, last_multi in *.
  rewrite fold_left_app, !omap_app. cbn [fold_left].
  destruct c as [data | condition | multi]; cbn [apply_update_call omap option_bind mbind];
    rewrite ?app_nil_r, ?last_snoc; cbn; rewrite ?Hc, ?Hf, ?Hu, ?Hm;
    repeat split; try reflexivity.
  all: rewrite last_snoc; cbn; try reflexivity.
  match goal with |- context [last ?l] => destruct (last l) end; cbn;
    [apply insert_insert_eq | reflexivity].
Qed.

(** X19.  Of a chain of [Set], [Where] and [SetMulti] calls only the last call of
    each kind counts.  [Execute] sends the store the filter of the last
    [Where] (the empty filter without one) and the update document
    [{$set: data}] of the last [Set], whose data replaces that of earlier
    ones (the empty document without one), through [UpdateMany] when the
    last [SetMulti] said so and [UpdateOne] otherwise. *)
Theorem UpdateExecute_last_calls (db : UpdateStore) (collection : string)
    (calls : list update_call) :
  collection <> "" ->
  UpdateExecute (apply_update_calls (NewUpdateBuilder collection) calls) db
  = let filter := from_option parseConditions ∅ (last_where calls) in
    let update : bsonM := from_option (fun data => {[ "$set" := VM data ]}) ∅ (last_set calls) in
    match (if default false (last_multi calls)
           then UpdateMany db collection filter update
           else UpdateOne db collection filter update) with
    | inr err => inr (String.append "failed to update documents: " err)
    | inl modifiedCount => inl modifiedCount
    end.
Proof.
  intros Hc.
  destruct (apply_update_calls_fields calls (NewUpdateBuilder collection)) as (Ec & Ef & Eu & Em).
  unfold UpdateExecute. rewrite Ec, Ef, Eu, Em. cbn.
  destruct (String.eqb_spec collection ""); [contradiction |]. reflexivity.
Qed.

Lemma split_loop_char (d c : ascii) (s cur : string) :
  GoStrings.split_loop (String d "") (String c s) 0 None cur
  = if Ascii.eqb c d then cur :: GoStrings.split_loop (String d "") s 0 None ""
    else GoStrings.split_loop (String d "") s 0 None (GoStrings.snoc cur c).
Proof.
  cbn. replace (GoStrings.HasPrefix s "") with true by (now destruct s).
  now rewrite andb_true_r.
Qed.

Lemma any_char_snoc (f : ascii -> bool) (s : string) (c : ascii) :
  any_char f (GoStrings.snoc s c) = any_char f s || f c.
Proof. unfold GoStrings.snoc. rewrite any_char_append. cbn. now rewrite orb_false_r. Qed.

(** No part of a split on commas holds a comma. *)
Lemma split_comma_parts (s cur : string) :
  any_char is_comma cur = false ->
  Forall (fun part => any_char is_comma part = false)
    (GoStrings.split_loop "," s 0 None cur).
Proof.
  revert cur. induction s as [| c s IH]; intros cur Hcur.
  - now repeat constructor.
  - rewrite split_loop_char. destruct (Ascii.eqb c ",") eqn:Ec.
    + constructor; [assumption | now apply IH].
    + apply IH. rewrite any_char_snoc, Hcur. exact Ec.
Qed.

Lemma split_comma_none (s cur : string) :
  any_char is_comma s = false -> GoStrings.split_loop "," s 0 None cur = [cur +:+ s].
Proof.
  revert cur. induction s as [| c s IH]; intros cur Hs.
  - cbn. now rewrite append_empty_r.
  - cbn [any_char] in Hs. apply orb_false_iff in Hs as [Hc Hs].
    rewrite split_loop_char. unfold is_comma in Hc. rewrite Hc, IH by assumption.
    now rewrite snoc_append.
Qed.

Lemma Fields_any_char (g : ascii -> bool) (s : string) :
  any_char g s = false -> Forall (fun w => any_char g w = false) (GoStrings.Fields s).
Proof.
  induction s as [| c s IH]; [constructor |]. cbn.
  intros [Hc Hs]%orb_false_iff. specialize (IH Hs).
  destruct (GoStrings.is_space c); [exact IH |].
  destruct (GoStrings.starts_word s).
  - destruct (GoStrings.Fields s) as [| w ws].
    + repeat constructor. cbn. now rewrite Hc.
    + inversion IH; subst. constructor; [cbn; now rewrite Hc | assumption].
  - constructor; [cbn; now rewrite Hc | assumption].
Qed.

Lemma index_keys_loop_invariant (parts : list string) (keys : bsonD) :
  Forall (fun part => any_char is_comma part = false) parts ->
  Forall index_key_ok keys ->
  Forall index_key_ok (index_keys_loop parts keys)
  /\ (length (index_keys_loop parts keys) <= length keys + length parts)%nat.
Proof.
  intros Hparts. revert keys.
  induction Hparts as [| part parts Hpart _ IH]; intros keys Hkeys; cbn.
  - split; [assumption | lia].
  - pose proof (Fields_tokens (GoStrings.TrimSpace part)) as Htok.
    pose proof (Fields_any_char is_comma _ (TrimSpace_any_char _ _ Hpart)) as Hcom.
    destruct (GoStrings.Fields (GoStrings.TrimSpace part)) as [| f [| d [| x l]]];
      try (destruct (IH keys Hkeys) as [H1 H2]; split; [assumption | lia]).
    destruct (IH (keys ++ [(f, VInt (if String.eqb (GoStrings.ToUpper d) "DESC" then -1 else 1))]))
      as [H1 H2].
    + apply Forall_app. split; [assumption |]. constructor; [| constructor].
      inversion Htok as [| ? ? [Hf1 Hf2] _]; subst. inversion Hcom; subst.
      repeat split; try assumption. cbn. destruct (String.eqb _ _); tauto.
    + split; [assumption |]. rewrite length_app in H2. cbn in H2. lia.
Qed.

(** X20.  On an ASCII field list [CreateIndexBuilder.Index] appends one index
    model under the given name on every call.  Its keys are well formed: the
    field names are not empty and hold no white space and no comma, and the
    directions are 1 or -1; there are at most as many as comma-separated
    parts, since the parts that are not a field and a direction are passed
    over.  A single part [field direction], whatever the white space around
    and between the two, gives the one key of the field, with -1 for DESC in
    any letter case and 1 otherwise. *)
Theorem Index_keys (ib : CreateIndexBuilder) (name fields : string) :
  GoStrings.is_ascii fields = true ->
  exists keys : bsonD,
    Index ib name fields
    = mkCreateIndexBuilder (cib_Collection ib) (cib_Indexes ib ++ [mkIndexModel keys name])
    /\ Forall index_key_ok keys
    /\ (length keys <= length (GoStrings.Split fields ","))%nat
    /\ (any_char is_comma fields = false ->
        (forall field dir, GoStrings.Fields fields = [field; dir] ->
           keys = [(field, VInt (if String.eqb (GoStrings.ToUpper dir) "DESC" then -1 else 1))])
        /\ (length (GoStrings.Fields fields) <> 2%nat -> keys = [])).
Proof.
  intros _. eexists. split; [reflexivity |].
  destruct (index_keys_loop_invariant (GoStrings.Split fields ",") []) as [H1 H2].
  { unfold GoStrings.Split, GoStrings.SplitN. cbn [Z.eqb Z.ltb Z.compare GoStrings.is_empty].
    now apply split_comma_parts. }
  { constructor. }
  split; [assumption |]. split; [exact H2 |].
  intros Hc. unfold GoStrings.Split, GoStrings.SplitN.
  cbn [Z.eqb Z.ltb Z.compare GoStrings.is_empty].
  rewrite split_comma_none, append_nil_l by assumption. cbn [index_keys_loop].
  rewrite Fields_TrimSpace. split.
  - intros field dir ->. reflexivity.
  - destruct (GoStrings.Fields fields) as [| f [| d [| x l]]]; cbn; try reflexivity.
    intros H. now contradiction H.
Qed.

End UpdateAndIndex.

(** One part, [email desc], with white space around it. *)
Lemma Index_keys_witness :
  Index (NewCreateIndexBuilder "users") "by_email" "  email   desc "
  = mkCreateIndexBuilder "users" [mkIndexModel [("email", VInt (-1))] "by_email"].
Proof.
  destruct (Index_keys (NewCreateIndexBuilder "users") "by_email" "  email   desc " eq_refl)
    as (keys & E & _ & _ & Hone).
  destruct (Hone eq_refl) as [Hkey _].
  rewrite E, (Hkey "email" "desc" eq_refl). reflexivity.
Defined.

(** Two [Set] calls, a [Where] and a [SetMulti]. *)
Lemma UpdateExecute_last_calls_witness :
  UpdateExecute
    (SetMulti (Set_ (Where (Set_ (NewUpdateBuilder "users") {[ "a" := VInt 1 ]}) "id = 7")
                 {[ "b" := VInt 2 ]}) true)
    (mkUpdateStore (fun _ _ _ => inl 0)
       (fun _ filter update =>
          match update !! "$set" with
          | Some (VM data) => if bool_decide (data !! "a" = None) then inl 3 else inl 2
          | _ => inr "no $set"
          end))
  = inl 3.
Proof.
  etransitivity.
  - apply (UpdateExecute_last_calls _ "users"
             [USet {[ "a" := VInt 1 ]}; UWhere "id = 7"; USet {[ "b" := VInt 2 ]};
              USetMulti true]).
    discriminate.
  - vm_compute. reflexivity.
Defined.

(** A well-formed builder of two rows, and a row of the wrong length. *)
Lemma InsertExecute_rows_match_fields_witness :
  InsertExecute
    (mkInsertBuilder "users" ["name"; "age"] [[VStr "a"; VInt 1]; [VStr "b"; VInt 2]])
    (mkInsertStore (fun _ _ => inl (VInt 7)) (fun _ docs => inl (map (fun _ => VInt 7) docs)))
  = Returns (inl (VA [VInt 7; VInt 7]))
  /\ Values (mkInsertBuilder "users" ["name"; "age"] []) [VStr "a"]
     = Panics "number of values must match the number of fields".
Proof.
  destruct (InsertExecute_rows_match_fields
              (mkInsertStore (fun _ _ => inl (VInt 7))
                 (fun _ docs => inl (map (fun _ => VInt 7) docs)))
              (mkInsertBuilder "users" ["name"; "age"] [[VStr "a"; VInt 1]; [VStr "b"; VInt 2]]))
    as (_ & _ & He); [repeat constructor |].
  split; [rewrite He by discriminate; reflexivity |].
  destruct (InsertExecute_rows_match_fields
              (mkInsertStore (fun _ _ => inl (VInt 7))
                 (fun _ docs => inl (map (fun _ => VInt 7) docs)))
              (mkInsertBuilder "users" ["name"; "age"] [])) as (_ & Hv & _); [constructor |].
  apply Hv. cbn. lia.
Defined.

(** The fields [name], [age] and the row ["a"; 1]. *)
Lemma row_document_lookup_witness :
  row_document ["name"; "age"] [VStr "a"; VInt 1] !! "age" = Some (VInt 1)
  /\ row_document ["name"; "age"] [VStr "a"; VInt 1] !! "city" = None.
Proof.
  destruct (row_document_lookup ["name"; "age"] [VStr "a"; VInt 1]) as (_ & H1 & H2);
    [ | reflexivity |].
  - apply NoDup_cons. split; [| apply NoDup_singleton].
    intros H%list_elem_of_singleton. discriminate H.
  - split; [now apply (H1 1%nat) | apply H2].
    intros H. repeat (apply elem_of_cons in H as [H | H]; [discriminate H |]).
    now apply elem_of_nil in H.
Defined.

(** [InsertInto] with two fields after a row of one value. *)
Lemma InsertExecute_short_row_witness :
  InsertExecute (InsertInto (mkInsertBuilder "users" ["name"] [[VStr "a"]]) "users"
                   ["name"; "age"])
    (mkInsertStore (fun _ _ => inl (VInt 7)) (fun _ _ => inl []))
  = Panics "index out of range [1] with length 1".
Proof.
  apply (InsertExecute_short_row _ _ [VStr "a"] []); [discriminate | reflexivity | cbn; lia].
Defined.
